(** * Reasoning blocks of chat messages: [public/scripts/reasoning.js]

    A shallow embedding of the reasoning lifecycle tracker
    ([ReasoningHandler]), of the prompt-injection counter
    ([PromptReasoning]) and of the prefix/suffix extraction parser
    ([parseReasoningFromString]), together with the facts that the
    specification states about them.

    JavaScript strings are sequences of UTF-16 code units; they are
    modelled as lists of code units.  Dates are modelled by their time
    value, an integer number of milliseconds.  The DOM updates of the
    source have no counterpart here. *)

From Stdlib Require Import ZArith NArith Ascii String Lia.
From stdpp Require Import base tactics option list.

Set Default Proof Using "Type".

(** ** JavaScript values used by the module *)

Module JS.

(** A string is a list of UTF-16 code units. *)
Definition jsstring : Type := list N.

(** Literals of the source, written in ASCII. *)
Definition lit (s : string) : jsstring :=
  map N_of_ascii (list_ascii_of_string s).

(** [!s] is true exactly for the empty string. *)
Definition truthy (s : jsstring) : bool :=
  match s with [] => false | _ :: _ => true end.

Definition eqb (s1 s2 : jsstring) : bool :=
  bool_decide (s1 = s2).

(** WhiteSpace and LineTerminator code points, the ones
    [String.prototype.trim] strips. *)
Definition isLineTerminator (c : N) : bool :=
  ((c =? 10) || (c =? 13) || (c =? 8232) || (c =? 8233))%N.

Definition isWhiteSpace (c : N) : bool :=
  ((c =? 9) || (c =? 11) || (c =? 12) || (c =? 32) || (c =? 160)
   || (c =? 5760) || ((8192 <=? c) && (c <=? 8202))
   || (c =? 8239) || (c =? 8287) || (c =? 12288) || (c =? 65279))%N.

Definition isTrimmed (c : N) : bool :=
  isWhiteSpace c || isLineTerminator c.

Fixpoint trimStart (s : jsstring) : jsstring :=
  match s with
  | c :: s' => if isTrimmed c then trimStart s' else s
  | [] => []
  end.

Definition trimEnd (s : jsstring) : jsstring :=
  rev (trimStart (rev s)).

Definition trim (s : jsstring) : jsstring :=
  trimEnd (trimStart s).

(** [s.startsWith(p)] *)
Fixpoint startsWith (s p : jsstring) : bool :=
  match p, s with
  | [], _ => true
  | c :: p', d :: s' => (d =? c)%N && startsWith s' p'
  | _ :: _, [] => false
  end.

(** Abrupt completions: the exceptions a call can end with. *)
Inductive error : Type :=
| TypeError
| SyntaxError.

Inductive completion (A : Type) : Type :=
| Normal (a : A)
| Throw (e : error).
Arguments Normal {A} a.
Arguments Throw {A} e.

Definition bind {A B} (c : completion A) (k : A -> completion B)
  : completion B :=
  match c with
  | Normal a => k a
  | Throw e => Throw e
  end.

(** [try { body } catch (error) { handler }] *)
Definition try_catch {A} (body : completion A)
    (handler : error -> completion A) : completion A :=
  match body with
  | Normal a => Normal a
  | Throw e => handler e
  end.

End JS.

Export JS.

#[export] Instance completion_ret : MRet completion := @Normal.
#[export] Instance completion_bind : MBind completion :=
  fun A B k c => JS.bind c k.

(** ** Regular expressions

    [RegExp] and [String.prototype.replace] are built-ins.  The parser
    only needs the constructor and a non-global replace with a replacer
    function of two used arguments, so that is the interface. *)

Class RegExpEngine : Type := {
  regex : Type;
  (** [new RegExp(pattern, flags)] *)
  RegExp_new : jsstring -> jsstring -> completion regex;
  (** [str.replace(regex, replacer)].  The replacer assigns to variables
      of its enclosing function: their values are passed through it. *)
  String_replace : forall St : Type,
      jsstring -> regex ->
      (jsstring -> jsstring -> St -> St * jsstring) ->
      St -> completion (St * jsstring)
}.
Arguments String_replace {_ St} str re replacer st.

(** The fragment of ECMAScript patterns (without the [u] flag) that the
    module can build: code units, identity escapes of syntax characters,
    the dot, each possibly under a greedy or a lazy star, and a single
    capture group.  Every pattern the fragment accepts has its ECMAScript
    meaning; every other pattern is rejected with [SyntaxError], whether
    ECMAScript rejects it or not. *)

Module RegExp.

Inductive atom : Type :=
| Char (c : N)
| Dot.

Inductive quantifier : Type :=
| Once
| Star (greedy : bool).

Record piece : Type := Piece { p_atom : atom; p_quant : quantifier }.

Record t : Type := Regex {
  before : list piece;
  group : list piece;
  after : list piece;
  dotAll : bool
}.

Inductive token : Type :=
| TAtom (a : atom)
| TStar
| TQuestion
| TOpen
| TClose.

(** SyntaxCharacter :: one of [^ $ \ . * + ? ( ) [ ] { } |] *)
Definition isSyntaxCharacter (c : N) : bool :=
  ((c =? 94) || (c =? 36) || (c =? 92) || (c =? 46) || (c =? 42)
   || (c =? 43) || (c =? 63) || (c =? 40) || (c =? 41) || (c =? 91)
   || (c =? 93) || (c =? 123) || (c =? 125) || (c =? 124))%N.

(** The escapes the fragment reads as the escaped character itself:
    a syntax character, [/] or [-]. *)
Definition isIdentityEscape (c : N) : bool :=
  (isSyntaxCharacter c || (c =? 47) || (c =? 45))%N.

Fixpoint tokenize (src : jsstring) : completion (list token) :=
  match src with
  | [] => Normal []
  | c :: src' =>
      if (c =? 92)%N then
        match src' with
        | [] => Throw SyntaxError
        | d :: src'' =>
            if isIdentityEscape d
            then (ts ← tokenize src''; Normal (TAtom (Char d) :: ts))
            else Throw SyntaxError
        end
      else if (c =? 46)%N then (ts ← tokenize src'; Normal (TAtom Dot :: ts))
      else if (c =? 42)%N then (ts ← tokenize src'; Normal (TStar :: ts))
      else if (c =? 63)%N then (ts ← tokenize src'; Normal (TQuestion :: ts))
      else if (c =? 40)%N then (ts ← tokenize src'; Normal (TOpen :: ts))
      else if (c =? 41)%N then (ts ← tokenize src'; Normal (TClose :: ts))
      else if isSyntaxCharacter c then Throw SyntaxError
      else (ts ← tokenize src'; Normal (TAtom (Char c) :: ts))
  end.

(** A run of pieces, up to the next parenthesis or the end. *)
Fixpoint pieces (ts : list token) : completion (list piece * list token) :=
  match ts with
  | TAtom a :: TStar :: TQuestion :: ts' =>
      ('(ps, r) ← pieces ts'; Normal (Piece a (Star false) :: ps, r))
  | TAtom a :: TStar :: ts' =>
      ('(ps, r) ← pieces ts'; Normal (Piece a (Star true) :: ps, r))
  | TAtom a :: ts' =>
      ('(ps, r) ← pieces ts'; Normal (Piece a Once :: ps, r))
  | TStar :: _ | TQuestion :: _ => Throw SyntaxError
  | TOpen :: _ | TClose :: _ | [] => Normal ([], ts)
  end.

Definition flags_dotAll (flags : jsstring) : completion bool :=
  match flags with
  | [] => Normal false
  | [115%N] => Normal true
  | _ => Throw SyntaxError
  end.

Definition compile (pattern flags : jsstring) : completion t :=
  s ← flags_dotAll flags;
  ts ← tokenize pattern;
  '(b, r1) ← pieces ts;
   match r1 with
   | TOpen :: r2 =>
       '(g, r3) ← pieces r2;
       match r3 with
       | TClose :: r4 =>
           '(a, r5) ← pieces r4;
           match r5 with
           | [] => Normal (Regex b g a s)
           | _ :: _ => Throw SyntaxError
           end
       | _ => Throw SyntaxError
       end
   | _ => Throw SyntaxError
   end.

Definition atom_matches (s : bool) (a : atom) (c : N) : bool :=
  match a with
  | Char d => (c =? d)%N
  | Dot => s || negb (isLineTerminator c)
  end.

(** Backtracking matchers in continuation style, as in the ECMAScript
    semantics: [k] is what remains of the pattern. *)
Fixpoint match_star {R} (s : bool) (a : atom) (greedy : bool)
    (k : jsstring -> option R) (input : jsstring) : option R :=
  if greedy then
    match input with
    | c :: input' =>
        if atom_matches s a c then
          match match_star s a greedy k input' with
          | Some r => Some r
          | None => k input
          end
        else k input
    | [] => k input
    end
  else
    match k input with
    | Some r => Some r
    | None =>
        match input with
        | c :: input' =>
            if atom_matches s a c then match_star s a greedy k input'
            else None
        | [] => None
        end
    end.

Fixpoint match_pieces {R} (s : bool) (ps : list piece)
    (k : jsstring -> option R) (input : jsstring) : option R :=
  match ps with
  | [] => k input
  | Piece a Once :: ps' =>
      match input with
      | c :: input' =>
          if atom_matches s a c then match_pieces s ps' k input' else None
      | [] => None
      end
  | Piece a (Star greedy) :: ps' =>
      match_star s a greedy (match_pieces s ps' k) input
  end.

(** A match anchored at the head of [input]: the captured substring
    and the input left after the match. *)
Definition match_here (re : t) (input : jsstring)
  : option (jsstring * jsstring) :=
  match_pieces (dotAll re) (before re) (fun s1 =>
    match_pieces (dotAll re) (group re) (fun s2 =>
      match_pieces (dotAll re) (after re) (fun s3 =>
        Some (take (length s1 - length s2) s1, s3)) s2) s1) input.

Record MatchResult : Type := Match {
  index : nat;
  matched : jsstring;
  capture : jsstring
}.

(** [regex.exec(str)] from position 0: the leftmost match. *)
Fixpoint search (re : t) (input : jsstring) (i : nat) : option MatchResult :=
  match match_here re input with
  | Some (cap, rest) =>
      Some (Match i (take (length input - length rest) input) cap)
  | None =>
      match input with
      | [] => None
      | _ :: input' => search re input' (S i)
      end
  end.

Definition exec (re : t) (str : jsstring) : option MatchResult :=
  search re str 0.

(** [str.replace(re, replacer)] for a regex without the [g] flag. *)
Definition replace {St} (str : jsstring) (re : t)
    (replacer : jsstring -> jsstring -> St -> St * jsstring) (st : St)
  : St * jsstring :=
  match exec re str with
  | None => (st, str)
  | Some m =>
      let '(st', by_) := replacer (matched m) (capture m) st in
      (st', take (index m) str ++ by_
              ++ drop (index m + length (matched m)) str)
  end.

End RegExp.

#[export] Instance JSRegExp : RegExpEngine := {
  regex := RegExp.t;
  RegExp_new := RegExp.compile;
  String_replace := fun St str re replacer st =>
    Normal (RegExp.replace str re replacer st)
}.

(** ** Collaborators imported from other modules *)

(** Modelled from the spec: [escapeRegex] of [utils.js], which is not
    among the sources.  Literal metacharacters are escaped before the
    pattern is constructed: each of [/ - \ ^ $ * + ? . ( ) | [ ] { }]
    gets a backslash in front. *)
Definition isRegexMetacharacter (c : N) : bool :=
  ((c =? 47) || (c =? 45) || (c =? 92) || (c =? 94) || (c =? 36)
   || (c =? 42) || (c =? 43) || (c =? 63) || (c =? 46) || (c =? 40)
   || (c =? 41) || (c =? 124) || (c =? 91) || (c =? 93) || (c =? 123)
   || (c =? 125))%N.

Fixpoint escapeRegex (s : jsstring) : jsstring :=
  match s with
  | [] => []
  | c :: s' =>
      if isRegexMetacharacter c then 92%N :: c :: escapeRegex s'
      else c :: escapeRegex s'
  end.

(** The functions of other modules that the tracker and the counter
    call: the regex post-processing hook, at the [REASONING] placement,
    and macro substitution. *)
Class Collaborators : Type := {
  getRegexedString : jsstring -> jsstring;
  substituteParams : jsstring -> jsstring
}.

(** ** Settings: [power_user]

    A setting that can be unset ([undefined]) is an [option]. *)

Record reasoning_settings : Type := {
  prefix : option jsstring;
  suffix : option jsstring;
  separator : option jsstring;
  add_to_prompts : bool;
  max_additions : Z;
  auto_parse : bool;
  auto_expand : bool
}.

Record power_user_t : Type := {
  reasoning : reasoning_settings;
  trim_spaces : bool
}.

(** [!value] for a string setting *)
Definition falsy (o : option jsstring) : bool :=
  match o with
  | None => true
  | Some s => negb (truthy s)
  end.

(** [value || ''] *)
Definition or_empty (o : option jsstring) : jsstring :=
  match o with
  | None => []
  | Some s => if truthy s then s else []
  end.

(** [escapeRegex(value)] on a setting: on [undefined] the call of
    [replace] inside it throws. *)
Definition escapeRegex_setting (o : option jsstring) : completion jsstring :=
  match o with
  | None => Throw TypeError
  | Some s => Normal (escapeRegex s)
  end.

(** ** The extraction parser *)

Record ParsedReasoning : Type := {
  pr_reasoning : jsstring;
  pr_content : jsstring
}.

(** The variables [didReplace] and [reasoning] that the replacer of
    [parseReasoningFromString] assigns. *)
Definition replacer_vars : Type := bool * jsstring.

(** [(_match, captureGroup) => { didReplace = true; reasoning =
    captureGroup; return ''; }] *)
Definition replacer (_match captureGroup : jsstring) (_ : replacer_vars)
  : replacer_vars * jsstring :=
  ((true, captureGroup), []).

Definition parseReasoningFromString `{RegExpEngine}
    (power_user : power_user_t) (str : jsstring)
  : completion (option ParsedReasoning) :=
  (* Both prefix and suffix must be defined *)
  if falsy (prefix (reasoning power_user))
     || falsy (suffix (reasoning power_user))
  then Normal None
  else
    try_catch
      (escaped_prefix ← escapeRegex_setting (prefix (reasoning power_user));
       escaped_suffix ← escapeRegex_setting (suffix (reasoning power_user));
       regex ← RegExp_new
         (escaped_prefix ++ lit "(.*?)" ++ escaped_suffix) (lit "s");
       '((didReplace, reasoning), content) ←
         String_replace str regex replacer (false, []);
       if didReplace && trim_spaces power_user
       then Normal (Some {| pr_reasoning := trim reasoning;
                            pr_content := trim content |})
       else Normal (Some {| pr_reasoning := reasoning;
                            pr_content := content |}))
      (fun error => Normal None).

(** ** The chat, the settings and the event bus *)

Record Extra : Type := {
  extra_reasoning : option jsstring;
  (** [None]: never assigned; [Some None]: [null] *)
  extra_reasoning_duration : option (option Z)
}.

Record Message : Type := {
  mes : jsstring;
  extra : option Extra
}.

Inductive chat_completion_sources : Type :=
| OPENAI
| MAKERSUITE
| DEEPSEEK
| OPENROUTER
| OTHER_SOURCE.

Record oai_settings_t : Type := {
  chat_completion_source : chat_completion_sources;
  openai_model : jsstring;
  google_model : jsstring;
  show_thoughts : bool
}.

(** An entry of a hidden-reasoning model list: a model name, or an
    object with [name], [startsWith] and [matchingFunc]. *)
Inductive hidden_model : Type :=
| ModelName (name : jsstring)
| ModelRule (name : jsstring) (startsWith : bool)
    (matchingFunc : option (jsstring -> bool)).

Definition hiddenReasoningModels (oai_settings : oai_settings_t)
    (source : chat_completion_sources)
  : option (jsstring * list hidden_model) :=
  match source with
  | OPENAI =>
      Some (openai_model oai_settings,
            [ModelRule (lit "o1") true None; ModelRule (lit "o3") true None])
  | MAKERSUITE =>
      Some (google_model oai_settings,
            [ModelRule (lit "gemini-2.0-flash-thinking-exp") true None;
             ModelRule (lit "gemini-2.0-pro-exp") true None])
  | _ => None
  end.

Definition isHiddenReasoningModel (main_api : jsstring)
    (oai_settings : oai_settings_t) : bool :=
  if negb (JS.eqb main_api (lit "openai")) then false
  else
    match hiddenReasoningModels oai_settings
            (chat_completion_source oai_settings) with
    | None => false
    | Some (currentModel, models) =>
        existsb (fun model =>
          match model with
          | ModelName name => JS.eqb currentModel name
          | ModelRule name true _ => JS.startsWith currentModel name
          | ModelRule _ false (Some matchingFunc) => matchingFunc currentModel
          | ModelRule _ false None => false
          end) models
    end.

Inductive event_types : Type :=
| STREAM_REASONING_DONE.

(** ** The reasoning lifecycle tracker *)

Module ReasoningState.
Inductive t : Type :=
| None
| Thinking
| Done
| Hidden.
End ReasoningState.

Module ReasoningHandler.

Record t : Type := Build {
  state : ReasoningState.t;
  reasoning : jsstring;
  startTime : option Z;
  endTime : option Z;
  type : jsstring;
  initialTime : Z;
  isHidden : bool
}.

Definition set_reasoning (r : jsstring) (this : t) : t :=
  Build (state this) r (startTime this) (endTime this) (type this)
    (initialTime this) (isHidden this).
Definition set_startTime (d : option Z) (this : t) : t :=
  Build (state this) (reasoning this) d (endTime this) (type this)
    (initialTime this) (isHidden this).
Definition set_endTime (d : option Z) (this : t) : t :=
  Build (state this) (reasoning this) (startTime this) d (type this)
    (initialTime this) (isHidden this).

(** [getDuration()] *)
Definition getDuration (this : t) : option Z :=
  match startTime this, endTime this with
  | Some s, Some e => Some (e - s)%Z
  | _, _ => None
  end.

(** An emitted event: its name and the two arguments of
    [STREAM_REASONING_DONE], the final reasoning and the duration
    resolver [() => this.getDuration()], which reads the handler when it
    is called. *)
Record Event : Type := {
  ev_type : event_types;
  ev_reasoning : jsstring;
  ev_getDuration : t -> option Z
}.

Record World : Type := {
  chat : list Message;
  power_user : power_user_t;
  main_api : jsstring;
  oai_settings : oai_settings_t;
  (** what [eventSource.emit] was called with, oldest first *)
  emitted : list Event
}.

Definition set_chat (c : list Message) (w : World) : World :=
  {| chat := c; power_user := power_user w; main_api := main_api w;
     oai_settings := oai_settings w; emitted := emitted w |}.

Definition add_emitted (e : Event) (w : World) : World :=
  {| chat := chat w; power_user := power_user w; main_api := main_api w;
     oai_settings := oai_settings w; emitted := emitted w ++ [e] |}.

(** Methods run on the handler and the world, and may throw; what they
    changed before throwing stays changed. *)
Definition method (A : Type) : Type :=
  t * World -> (t * World) * completion A.

#[export] Instance method_ret : MRet method := fun A a σ => (σ, Normal a).
#[export] Instance method_bind : MBind method := fun A B k c σ =>
  match c σ with
  | (σ', Normal a) => k a σ'
  | (σ', Throw e) => (σ', Throw e)
  end.

Definition throw {A} (e : error) : method A := fun σ => (σ, Throw e).
Definition this : method t := fun σ => (σ, Normal (fst σ)).
Definition world : method World := fun σ => (σ, Normal (snd σ)).
Definition assign (f : t -> t) : method () :=
  fun σ => ((f (fst σ), snd σ), Normal ()).
Definition update_world (f : World -> World) : method () :=
  fun σ => ((fst σ, f (snd σ)), Normal ()).

(** [chat[messageId]], about to be dereferenced *)
Definition chat_at (messageId : nat) : method Message :=
  w ← world;
  match chat w !! messageId with
  | Some message => mret message
  | None => throw TypeError
  end.

(** [chat[messageId]['extra']], about to be dereferenced *)
Definition extra_at (messageId : nat) : method Extra :=
  message ← chat_at messageId;
  match extra message with
  | Some extra => mret extra
  | None => throw TypeError
  end.

(** [chat[messageId]['extra'] = extra] *)
Definition set_extra_at (messageId : nat) (e : Extra) : method () :=
  message ← chat_at messageId;
  update_world (fun w =>
    set_chat (<[messageId := {| mes := mes message; extra := Some e |}]> (chat w)) w).

(** [await eventSource.emit(type, finalReasoning, () => this.getDuration())] *)
Definition emit (ty : event_types) (finalReasoning : jsstring) : method () :=
  update_world (add_emitted
    {| ev_type := ty; ev_reasoning := finalReasoning;
       ev_getDuration := getDuration |}).

(** [constructor(type, timeStarted)] *)
Definition constructor (type : jsstring) (timeStarted : Z) (w : World) : t :=
  {| state := ReasoningState.None;
     reasoning := [];
     startTime := None;
     endTime := None;
     type := type;
     initialTime := timeStarted;
     isHidden := isHiddenReasoningModel (main_api w) (oai_settings w) |}.

(** [updateReasoning(reasoning = null)] *)
Definition updateReasoning `{Collaborators} (reasoning' : option jsstring)
  : method () :=
  this ← this;
  let reasoning' := default (reasoning this) reasoning' in
  assign (set_reasoning (getRegexedString reasoning')).

(** [updateTime(messageId)], without the update of the page *)
Definition updateTime (messageId : nat) : method () :=
  this ← this;
  let duration := getDuration this in
  extra ← extra_at messageId;
  set_extra_at messageId
    {| extra_reasoning := extra_reasoning extra;
       extra_reasoning_duration := Some duration |}.

Definition finalReasoning_of (power_user : power_user_t) (this : t)
  : jsstring :=
  if trim_spaces power_user then trim (reasoning this) else reasoning this.

(** [process(messageId, mesChanged, currentTime)] *)
Definition process `{Collaborators} (messageId : nat) (mesChanged : bool)
    (currentTime : Z) : method () :=
  this0 ← this;
  if negb (truthy (reasoning this0)) && negb (isHidden this0) then mret ()
  else
    updateReasoning None;;
    (* Ensure the chat extra exists. *)
    message ← chat_at messageId;
    (if extra message is Some _ then mret ()
     else set_extra_at messageId
            {| extra_reasoning := None;
               extra_reasoning_duration := None |});;
    extra ← extra_at messageId;
    this1 ← this;
    w ← world;
    let finalReasoning := finalReasoning_of (power_user w) this1 in
    let reasoningChanged :=
      negb (bool_decide (extra_reasoning extra = Some finalReasoning)) in
    set_extra_at messageId
      {| extra_reasoning := Some finalReasoning;
         extra_reasoning_duration := extra_reasoning_duration extra |};;
    (if (isHidden this1 || reasoningChanged)
        && bool_decide (startTime this1 = None)
     then assign (set_startTime (Some (initialTime this1)))
     else mret ());;
    this2 ← this;
    (if (isHidden this2 || negb reasoningChanged) && mesChanged
        && negb (bool_decide (startTime this2 = None))
        && bool_decide (endTime this2 = None)
     then
       assign (set_endTime (Some currentTime));;
       emit STREAM_REASONING_DONE finalReasoning
     else mret ());;
    updateTime messageId.

(** [finish(messageId)]; [now] is the value of [new Date()]. *)
Definition finish (messageId : nat) (now : Z) : method () :=
  this0 ← this;
  (* Make sure the finish time is recorded if a reasoning was in
     process and it wasn't ended correctly during streaming *)
  if negb (bool_decide (startTime this0 = None))
     && bool_decide (endTime this0 = None)
  then
    assign (set_endTime (Some now));;
    this1 ← this;
    w ← world;
    let finalReasoning := finalReasoning_of (power_user w) this1 in
    emit STREAM_REASONING_DONE finalReasoning;;
    updateTime messageId
  else mret ().

(** *** Sessions

    What happens to a handler during a generation: the streaming
    processor stores the accumulated reasoning, runs an update cycle or
    ends the stream, and between two calls other code may change the
    chat and the settings. *)
Inductive call : Type :=
| UpdateReasoning (reasoning : option jsstring)
| Process (messageId : nat) (mesChanged : bool) (currentTime : Z)
| Finish (messageId : nat) (now : Z)
| Elsewhere (chat : list Message) (power_user : power_user_t).

Definition run_call `{Collaborators} (c : call) : method () :=
  match c with
  | UpdateReasoning r => updateReasoning r
  | Process messageId mesChanged currentTime =>
      process messageId mesChanged currentTime
  | Finish messageId now => finish messageId now
  | Elsewhere chat' power_user' =>
      update_world (fun w =>
        {| chat := chat'; power_user := power_user';
           main_api := main_api w; oai_settings := oai_settings w;
           emitted := emitted w |})
  end.

(** A thrown exception ends the call, not the session. *)
Fixpoint run_calls `{Collaborators} (cs : list call) (σ : t * World)
  : t * World :=
  match cs with
  | [] => σ
  | c :: cs' => run_calls cs' (fst (run_call c σ))
  end.

(** A new session in the world [w]. *)
Definition session `{Collaborators} (type : jsstring) (timeStarted : Z)
    (w : World) (cs : list call) : t * World :=
  run_calls cs (constructor type timeStarted w, w).

End ReasoningHandler.

(** ** The prompt-injection counter *)

Module PromptReasoning.

(** The zero-width space, U+200B. *)
Definition REASONING_PLACEHOLDER : jsstring := [8203%N].

Record t : Type := { counter : Z }.

Definition constructor : t := {| counter := 0 |}.

(** [isLimitReached()] *)
Definition isLimitReached (power_user : power_user_t) (this : t) : bool :=
  if negb (add_to_prompts (reasoning power_user)) then true
  else (max_additions (reasoning power_user) <=? counter this)%Z.

(** [addToMessage(content, reasoning, isPrefix)]: the counter after
    the call and the returned string. *)
Definition addToMessage `{Collaborators} (power_user : power_user_t)
    (content reasoning_ : jsstring) (isPrefix : bool) (this : t)
  : t * jsstring :=
  (* Disabled or reached limit of additions *)
  if negb isPrefix
     && (negb (add_to_prompts (reasoning power_user))
         || (max_additions (reasoning power_user) <=? counter this)%Z)
  then (this, content)
  (* No reasoning provided or a placeholder *)
  else if negb (truthy reasoning_) || JS.eqb reasoning_ REASONING_PLACEHOLDER
  then (this, content)
  else
    (* Increment the counter *)
    let this := {| counter := counter this + 1 |} in
    (* Substitute macros in variable parts *)
    let prefix := substituteParams (or_empty (prefix (reasoning power_user))) in
    let separator :=
      substituteParams (or_empty (separator (reasoning power_user))) in
    let suffix := substituteParams (or_empty (suffix (reasoning power_user))) in
    (* Combine parts with reasoning only *)
    if isPrefix && negb (truthy content) then (this, prefix ++ reasoning_)
    (* Combine parts with reasoning and content *)
    else (this, prefix ++ reasoning_ ++ suffix ++ separator ++ content).

End PromptReasoning.

(** ** Vocabulary of the statements *)

(** The prefix, followed somewhere later by the suffix, occurs in [str]. *)
Definition occurs (p s str : jsstring) : Prop :=
  ∃ a r b, str = a ++ p ++ r ++ s ++ b.

(** [a ++ p ++ r ++ s ++ b] splits [str] at the first non-greedy span:
    no span starts further left, and no span that starts there ends
    earlier. *)
Definition first_span (p s str a r b : jsstring) : Prop :=
  str = a ++ p ++ r ++ s ++ b
  ∧ (∀ a' r' b', str = a' ++ p ++ r' ++ s ++ b' → length a ≤ length a')
  ∧ (∀ r' b', str = a ++ p ++ r' ++ s ++ b' → length r ≤ length r').

(** The regex the parser works with: the literal prefix, a lazy capture
    of anything, the literal suffix, under the [s] flag. *)
Definition chars (l : jsstring) : list RegExp.piece :=
  map (fun c => RegExp.Piece (RegExp.Char c) RegExp.Once) l.

Definition span_regex (p s : jsstring) : RegExp.t :=
  RegExp.Regex (chars p) [RegExp.Piece RegExp.Dot (RegExp.Star false)]
    (chars s) true.

(** An engine that rejects every pattern and fails every replacement. *)
Definition failing_engine : RegExpEngine :=
  {| regex := ();
     RegExp_new := λ _ _, Throw SyntaxError;
     String_replace := λ _ _ _ _ _, Throw TypeError |}.

(** An engine that shows what it was given: its regex is the pattern it
    was constructed from, and its replacement returns that pattern
    instead of the string. *)
Definition recording_engine : RegExpEngine :=
  {| regex := jsstring;
     RegExp_new := λ pattern _, Normal pattern;
     String_replace := λ _ _ re _ st, Normal (st, re) |}.

(** Settings and collaborators of the examples. *)
Definition example_settings (p s : string) (trim : bool) : power_user_t :=
  {| reasoning :=
       {| prefix := Some (lit p); suffix := Some (lit s);
          separator := Some (lit "|"); add_to_prompts := true;
          max_additions := 2; auto_parse := true; auto_expand := false |};
     trim_spaces := trim |}.

Definition no_hooks : Collaborators :=
  {| getRegexedString := fun s => s; substituteParams := fun s => s |}.

Definition example_oai_settings : oai_settings_t :=
  {| chat_completion_source := DEEPSEEK; openai_model := lit "gpt-4o";
     google_model := lit "gemini-pro"; show_thoughts := true |}.

Definition example_message (stored : option jsstring) : Message :=
  {| mes := lit "Hi";
     extra := Some {| extra_reasoning := stored;
                      extra_reasoning_duration := None |} |}.

Definition example_world (stored : option jsstring)
  : ReasoningHandler.World :=
  {| ReasoningHandler.chat := [example_message stored];
     ReasoningHandler.power_user := example_settings "<think>" "</think>" false;
     ReasoningHandler.main_api := lit "openai";
     ReasoningHandler.oai_settings := example_oai_settings;
     ReasoningHandler.emitted := [] |}.

(** The same world with trim-spaces enabled. *)
Definition trimming_world (stored : option jsstring)
  : ReasoningHandler.World :=
  {| ReasoningHandler.chat := [example_message stored];
     ReasoningHandler.power_user := example_settings "<think>" "</think>" true;
     ReasoningHandler.main_api := lit "openai";
     ReasoningHandler.oai_settings := example_oai_settings;
     ReasoningHandler.emitted := [] |}.

(** The same world with a hidden-reasoning model selected. *)
Definition hidden_world : ReasoningHandler.World :=
  {| ReasoningHandler.chat := [example_message None];
     ReasoningHandler.power_user := example_settings "<think>" "</think>" false;
     ReasoningHandler.main_api := lit "openai";
     ReasoningHandler.oai_settings :=
       {| chat_completion_source := OPENAI; openai_model := lit "o1-preview";
          google_model := lit "gemini-pro"; show_thoughts := true |};
     ReasoningHandler.emitted := [] |}.

Definition example_handler (reasoning : jsstring) (startTime : option Z)
  : ReasoningHandler.t :=
  {| ReasoningHandler.state := ReasoningState.None;
     ReasoningHandler.reasoning := reasoning;
     ReasoningHandler.startTime := startTime;
     ReasoningHandler.endTime := None;
     ReasoningHandler.type := lit "normal";
     ReasoningHandler.initialTime := 1000;
     ReasoningHandler.isHidden := false |}.

(** The event of one finished reasoning. *)
Definition reasoning_done (finalReasoning : jsstring) : ReasoningHandler.Event :=
  {| ReasoningHandler.ev_type := STREAM_REASONING_DONE;
     ReasoningHandler.ev_reasoning := finalReasoning;
     ReasoningHandler.ev_getDuration := ReasoningHandler.getDuration |}.

(** One update cycle of the tracker, step by step: what [process] makes
    of the handler when the message exists. *)
Section cycle.
Import ReasoningHandler.
Context `{hooks : Collaborators}.

Implicit Types (h : ReasoningHandler.t) (w : World).

(** The chat after [chat[messageId]['extra'] = e]. *)
Definition with_extra (messageId : nat) (message : Message) (e : Extra)
    (w : World) : World :=
  set_chat (<[messageId := {| mes := mes message; extra := Some e |}]> (chat w)) w.

Definition returns_early h : bool :=
  negb (truthy (reasoning h)) && negb (isHidden h).

Definition regexed h : ReasoningHandler.t :=
  set_reasoning (getRegexedString (reasoning h)) h.

Definition finalReasoning h w : jsstring :=
  finalReasoning_of (power_user w) (regexed h).

(** [extra['reasoning']] as the cycle finds it *)
Definition stored (message : Message) : option jsstring :=
  extra message ≫= extra_reasoning.

Definition reasoningChanged h w (message : Message) : bool :=
  negb (bool_decide (stored message = Some (finalReasoning h w))).

Definition started h w message : ReasoningHandler.t :=
  if (isHidden h || reasoningChanged h w message)
     && bool_decide (startTime h = None)
  then set_startTime (Some (initialTime h)) (regexed h)
  else regexed h.

Definition ends h w message (mesChanged : bool) : bool :=
  (isHidden h || negb (reasoningChanged h w message)) && mesChanged
  && negb (bool_decide (startTime (started h w message) = None))
  && bool_decide (endTime h = None).

Definition ended h w message mesChanged (currentTime : Z)
  : ReasoningHandler.t :=
  if ends h w message mesChanged
  then set_endTime (Some currentTime) (started h w message)
  else started h w message.

End cycle.

(** ** The slash commands and the auto-parser *)

(** [isFalseBoolean] of [utils.js], which is not among the sources. *)
Class Utils : Type := {
  isFalseBoolean : jsstring -> bool
}.

(** [parseInt(string)], without a radix.  The result is [None] for
    [NaN] and otherwise the integer that the returned number rounds; the
    callers index the chat with it, where the rounding of an integer
    beyond the lengths of arrays makes no difference. *)
Definition digit_value (radix : Z) (c : N) : option Z :=
  let v :=
    if ((48 <=? c) && (c <=? 57))%N then Some (Z.of_N c - 48)%Z
    else if ((97 <=? c) && (c <=? 122))%N then Some (Z.of_N c - 97 + 10)%Z
    else if ((65 <=? c) && (c <=? 90))%N then Some (Z.of_N c - 65 + 10)%Z
    else None in
  match v with
  | Some d => if (d <? radix)%Z then Some d else None
  | None => None
  end.

(** The value of the longest prefix of digits, [None] when it is empty. *)
Fixpoint digits_value (radix : Z) (acc : option Z) (s : jsstring) : option Z :=
  match s with
  | c :: s' =>
      match digit_value radix c with
      | Some d => digits_value radix (Some (default 0 acc * radix + d)%Z) s'
      | None => acc
      end
  | [] => acc
  end.

Definition parseInt (string : jsstring) : option Z :=
  let trimmed := trimStart string in
  let sign := match trimmed with 45%N :: _ => (-1)%Z | _ => 1%Z end in
  let unsigned :=
    match trimmed with
    | 43%N :: rest | 45%N :: rest => rest
    | _ => trimmed
    end in
  let '(R, digits) :=
    match unsigned with
    | 48%N :: x :: rest =>
        if ((x =? 120) || (x =? 88))%N then (16%Z, rest) else (10%Z, unsigned)
    | _ => (10%Z, unsigned)
    end in
  match digits_value R None digits with
  | Some mathInt => Some (sign * mathInt)%Z
  | None => None
  end.

(** [chat[messageId]] for a number that is an integer *)
Definition chat_index (chat : list Message) (messageId : Z) : option Message :=
  if (0 <=? messageId)%Z then chat !! Z.to_nat messageId else None.

(** [reasoning.replace(PromptReasoning.REASONING_PLACEHOLDER_REGEX, '')]:
    the regex is the placeholder followed by the end of the input, so the
    one match there can be is a last code unit that is the placeholder. *)
Fixpoint remove_placeholder (reasoning : jsstring) : jsstring :=
  match reasoning with
  | [] => []
  | [c] => if (c =? 8203)%N then [] else [c]
  | c :: reasoning' => c :: remove_placeholder reasoning'
  end.

(** [String(message?.extra?.reasoning ?? '')] *)
Definition reasoning_of (message : option Message) : jsstring :=
  match message with
  | Some message =>
      match extra message with
      | Some extra => default [] (extra_reasoning extra)
      | None => []
      end
  | None => []
  end.

(** The callback of [/reasoning-get]. *)
Definition reasoning_get (chat : list Message) (value : jsstring) : jsstring :=
  let messageId :=
    match parseInt value with
    | Some n => n
    | None => (Z.of_nat (length chat) - 1)%Z
    end in
  let message := chat_index chat messageId in
  let reasoning := reasoning_of message in
  remove_placeholder reasoning.

(** The callback of [/reasoning-parse]; [regex] is [args.regex]. *)
Definition reasoning_parse `{RegExpEngine} `{Collaborators} `{Utils}
    (power_user : power_user_t) (regex : option jsstring) (value : jsstring)
  : completion jsstring :=
  if negb (truthy value) then Normal []
  else if falsy (prefix (reasoning power_user))
          || falsy (suffix (reasoning power_user))
  then Normal value
  else
    parsedReasoning ← parseReasoningFromString power_user value;
    match parsedReasoning with
    | None => Normal []
    | Some parsedReasoning =>
        let applyRegex := negb (isFalseBoolean (default [] regex)) in
        Normal (if applyRegex
                then getRegexedString (pr_reasoning parsedReasoning)
                else pr_reasoning parsedReasoning)
    end.

(** The listener of [MESSAGE_RECEIVED] that [registerReasoningAppEvents]
    installs: the chat after it, and [contentUpdated], on which the
    update of the message block on the page depends. *)
Definition auto_parse_message `{RegExpEngine} `{Collaborators}
    (power_user : power_user_t) (idx : nat) (chat : list Message)
  : completion (list Message * bool) :=
  if negb (auto_parse (reasoning power_user)) then Normal (chat, false)
  else
    match chat !! idx with
    | None => Normal (chat, false)
    | Some message =>
        if negb (truthy (mes message)) || JS.eqb (mes message) (lit "...")
        then Normal (chat, false)
        else
          parsedReasoning ← parseReasoningFromString power_user (mes message);
          match parsedReasoning with
          (* No reasoning block found *)
          | None => Normal (chat, false)
          | Some parsedReasoning =>
              (* Make sure the message has an extra object *)
              let extra0 :=
                default {| extra_reasoning := None;
                           extra_reasoning_duration := None |}
                  (extra message) in
              let contentUpdated :=
                truthy (pr_reasoning parsedReasoning)
                || negb (JS.eqb (pr_content parsedReasoning) (mes message)) in
              (* If reasoning was found, add it to the message *)
              let extra1 :=
                if truthy (pr_reasoning parsedReasoning)
                then {| extra_reasoning :=
                          Some (getRegexedString (pr_reasoning parsedReasoning));
                        extra_reasoning_duration :=
                          extra_reasoning_duration extra0 |}
                else extra0 in
              (* Update the message text if it was changed *)
              let mes1 :=
                if negb (JS.eqb (pr_content parsedReasoning) (mes message))
                then pr_content parsedReasoning
                else mes message in
              Normal (<[idx := {| mes := mes1; extra := Some extra1 |}]> chat,
                      contentUpdated)
          end
    end.

(** ** Several prompt additions in a row *)

(** One call of [addToMessage]: content, reasoning, [isPrefix]. *)
Definition addition : Type := jsstring * jsstring * bool.

(** The calls in order on one counter: the counter after them and the
    strings they returned. *)
Fixpoint addToMessages `{Collaborators} (power_user : power_user_t)
    (calls : list addition) (this : PromptReasoning.t)
  : PromptReasoning.t * list jsstring :=
  match calls with
  | [] => (this, [])
  | (content, reasoning_, isPrefix) :: calls' =>
      let '(this', out) :=
        PromptReasoning.addToMessage power_user content reasoning_ isPrefix this in
      let '(this'', outs) := addToMessages power_user calls' this' in
      (this'', out :: outs)
  end.

(** The string of a message with its reasoning in front: prefix,
    reasoning, suffix, separator, content, the settings after macro
    substitution. *)
Definition with_reasoning `{Collaborators} (power_user : power_user_t)
    (content reasoning_ : jsstring) : jsstring :=
  substituteParams (or_empty (prefix (reasoning power_user))) ++ reasoning_
    ++ substituteParams (or_empty (suffix (reasoning power_user)))
    ++ substituteParams (or_empty (separator (reasoning power_user)))
    ++ content.

(** A call that is not for the prefix and brings reasoning that is
    neither empty nor the placeholder. *)
Definition plain_addition (a : addition) : Prop :=
  a.2 = false ∧ a.1.2 ≠ [] ∧ a.1.2 ≠ PromptReasoning.REASONING_PLACEHOLDER.


(** A received message with a reasoning block in its text. *)
Definition received_message : Message :=
  {| mes := lit "<think>hm</think>Hello"; extra := None |}.

(** [s] occurs in [l]. *)
Definition contains (l s : jsstring) : Prop :=
  ∃ u v, l = u ++ s ++ v.

(** Utilities of the examples: the usual false words. *)
Definition example_utils : Utils :=
  {| isFalseBoolean := λ s,
       JS.eqb s (lit "off") || JS.eqb s (lit "false") || JS.eqb s (lit "0") |}.

Section cycle_writes.
Import ReasoningHandler.
Context `{hooks : Collaborators}.

(** What a completed cycle leaves on the message. *)
Definition cycle_message h w (m : Message) (mesChanged : bool)
    (currentTime : Z) : Message :=
  {| mes := mes m;
     extra := Some
       {| extra_reasoning := Some (finalReasoning h w);
          extra_reasoning_duration :=
            Some (getDuration (ended h w m mesChanged currentTime)) |} |}.

End cycle_writes.

(** Case analysis on the tests [c =? n] of a predicate on code units. *)
Ltac split_code_unit c :=
  repeat match goal with
    | H : context [(c =? ?n)%N] |- _ =>
        destruct (N.eqb_spec c n); [subst c; done|]
    | |- context [(c =? ?n)%N] =>
        destruct (N.eqb_spec c n); [subst c; done|]
    end.

(** * Facts *)

(** ** The tracker, call by call *)

Section tracker.
Import ReasoningHandler.
Context `{hooks : Collaborators}.

Implicit Types (h : ReasoningHandler.t) (w : World) (σ : ReasoningHandler.t * World).

Lemma chat_at_found h w i m :
  chat w !! i = Some m → chat_at i (h, w) = ((h, w), Normal m).
Proof. intros E. unfold chat_at, mbind, method_bind, world; cbn. by rewrite E. Qed.

Lemma chat_at_missing h w i :
  chat w !! i = None → chat_at i (h, w) = ((h, w), Throw TypeError).
Proof. intros E. unfold chat_at, mbind, method_bind, world; cbn. by rewrite E. Qed.

Lemma set_extra_at_found h w i m e :
  chat w !! i = Some m →
  set_extra_at i e (h, w) = ((h, with_extra i m e w), Normal ()).
Proof.
  intros E. unfold set_extra_at, mbind, method_bind.
  by rewrite (chat_at_found _ _ _ _ E).
Qed.

Lemma with_extra_lookup w i m e :
  chat w !! i = Some m →
  chat (with_extra i m e w) !! i = Some {| mes := mes m; extra := Some e |}.
Proof.
  intros E. cbn. apply list_lookup_insert_eq. by eapply lookup_lt_Some.
Qed.

Lemma extra_at_found h w i m e :
  chat w !! i = Some m → extra m = Some e →
  extra_at i (h, w) = ((h, w), Normal e).
Proof.
  intros E Ee. unfold extra_at, mbind, method_bind.
  rewrite (chat_at_found _ _ _ _ E), Ee. done.
Qed.

(** [updateTime] leaves the handler, the settings and the event log
    alone, whether it throws or not. *)
Lemma updateTime_frame i h w :
  (updateTime i (h, w)).1.1 = h
  ∧ emitted (updateTime i (h, w)).1.2 = emitted w
  ∧ power_user (updateTime i (h, w)).1.2 = power_user w.
Proof.
  unfold updateTime, mbind, method_bind, this; cbn.
  unfold extra_at, mbind, method_bind.
  destruct (chat w !! i) as [m|] eqn:E.
  - rewrite (chat_at_found _ _ _ _ E).
    destruct (extra m) as [e|]; cbn; [|done].
    by rewrite (set_extra_at_found _ _ _ _ _ E).
  - by rewrite (chat_at_missing _ _ _ E).
Qed.

Lemma updateTime_found i h w m e :
  chat w !! i = Some m → extra m = Some e →
  updateTime i (h, w)
  = ((h, with_extra i m {| extra_reasoning := extra_reasoning e;
                           extra_reasoning_duration := Some (getDuration h) |} w),
     Normal ()).
Proof.
  intros E Ee. unfold updateTime, mbind, method_bind, this; cbn.
  rewrite (extra_at_found _ _ _ _ _ E Ee).
  by rewrite (set_extra_at_found _ _ _ _ _ E).
Qed.

Lemma process_early i mesChanged currentTime h w :
  returns_early h = true →
  process i mesChanged currentTime (h, w) = ((h, w), Normal ()).
Proof.
  intros E. unfold process, mbind, method_bind, this; cbn.
  unfold returns_early in E. by rewrite E.
Qed.

Lemma process_missing i mesChanged currentTime h w :
  returns_early h = false → chat w !! i = None →
  process i mesChanged currentTime (h, w) = ((regexed h, w), Throw TypeError).
Proof.
  intros E Em. unfold process, mbind, method_bind, this; cbn.
  unfold returns_early in E. rewrite E.
  unfold updateReasoning, mbind, method_bind, this, assign; cbn.
  by rewrite chat_at_missing.
Qed.

Lemma process_found i mesChanged currentTime h w m :
  returns_early h = false → chat w !! i = Some m →
  ∃ w',
    process i mesChanged currentTime (h, w)
    = ((ended h w m mesChanged currentTime, w'), Normal ())
    ∧ power_user w' = power_user w
    ∧ emitted w'
      = emitted w ++ (if ends h w m mesChanged
                      then [reasoning_done (finalReasoning h w)] else []).
Proof.
  intros E Em. unfold process, mbind, method_bind, this; cbn.
  unfold returns_early in E. rewrite E.
  unfold updateReasoning, mbind, method_bind, this, assign; cbn.
  fold (regexed h).
  rewrite (chat_at_found _ _ _ _ Em).
  assert (∃ w1 m1 e0,
    (if extra m is Some _ then mret ()
     else set_extra_at i {| extra_reasoning := None;
                            extra_reasoning_duration := None |})
      (regexed h, w) = ((regexed h, w1), Normal ())
    ∧ chat w1 !! i = Some m1 ∧ extra m1 = Some e0
    ∧ extra_reasoning e0 = stored m
    ∧ power_user w1 = power_user w ∧ emitted w1 = emitted w)
    as (w1 & m1 & e0 & -> & Em1 & Ee0 & Est & Hp & He).
  { unfold stored. destruct (extra m) as [e|] eqn:Ee.
    - by exists w, m, e.
    - rewrite (set_extra_at_found _ _ _ _ _ Em).
      eexists _, _, _. split; [done|].
      split; [by apply with_extra_lookup|]. done. }
  rewrite (extra_at_found _ _ _ _ _ Em1 Ee0).
  rewrite (set_extra_at_found _ _ _ _ _ Em1). cbn.
  rewrite Est, Hp. fold (finalReasoning h w). fold (reasoningChanged h w m).
  set (e1 := {| extra_reasoning := Some (finalReasoning h w);
                extra_reasoning_duration := extra_reasoning_duration e0 |}).
  assert (Em2 : chat (with_extra i m1 e1 w1) !! i
                = Some {| mes := mes m1; extra := Some e1 |})
    by by apply with_extra_lookup.
  set (w2 := with_extra i m1 e1 w1) in *.
  assert ((if (isHidden h || reasoningChanged h w m)
              && bool_decide (startTime h = None)
           then λ σ, (set_startTime (Some (initialTime h)) σ.1, σ.2, Normal ())
           else mret ()) (regexed h, w2)
          = ((started h w m, w2), Normal ())) as ->.
  { unfold started.
    by destruct ((isHidden h || reasoningChanged h w m)
                 && bool_decide (startTime h = None)). }
  cbn.
  replace (isHidden (started h w m)) with (isHidden h)
    by (unfold started; by case_match).
  replace (endTime (started h w m)) with (endTime h)
    by (unfold started; by case_match).
  fold (ends h w m mesChanged).
  unfold ended. destruct (ends h w m mesChanged); cbn.
  - erewrite updateTime_found; [|exact Em2|done].
    eexists. split; [done|]. cbn. by rewrite He.
  - erewrite updateTime_found; [|exact Em2|done].
    eexists. split; [done|]. cbn. by rewrite He, app_nil_r.
Qed.

Lemma started_startTime h w m :
  startTime (started h w m)
  = if (isHidden h || reasoningChanged h w m) && bool_decide (startTime h = None)
    then Some (initialTime h) else startTime h.
Proof. unfold started. by case_match. Qed.

Lemma started_frame h w m :
  endTime (started h w m) = endTime h
  ∧ initialTime (started h w m) = initialTime h
  ∧ isHidden (started h w m) = isHidden h.
Proof. unfold started. by case_match. Qed.

Lemma started_keeps h w m :
  startTime h ≠ None → startTime (started h w m) = startTime h.
Proof.
  intros Hs. rewrite started_startTime.
  rewrite (bool_decide_eq_false_2 _ Hs). by rewrite andb_false_r.
Qed.

Lemma ended_endTime h w m mesChanged currentTime :
  endTime (ended h w m mesChanged currentTime)
  = if ends h w m mesChanged then Some currentTime else endTime h.
Proof.
  unfold ended. case_match; [done|]. apply started_frame.
Qed.

Lemma ended_frame h w m mesChanged currentTime :
  startTime (ended h w m mesChanged currentTime) = startTime (started h w m)
  ∧ initialTime (ended h w m mesChanged currentTime) = initialTime h
  ∧ isHidden (ended h w m mesChanged currentTime) = isHidden h.
Proof.
  unfold ended. case_match; cbn; (split; [done|apply started_frame]).
Qed.

(** A cycle that ends the reasoning found it started and not ended. *)
Lemma ends_true h w m mesChanged :
  ends h w m mesChanged = true →
  startTime (started h w m) ≠ None ∧ endTime h = None ∧ mesChanged = true.
Proof.
  unfold ends. rewrite !andb_true_iff, negb_true_iff.
  intros [[[_ ->] Hs] He].
  apply bool_decide_eq_false_1 in Hs. by apply bool_decide_eq_true_1 in He.
Qed.

(** *** The end of the stream *)

Lemma not_pending (s e : option Z) :
  ¬ (s ≠ None ∧ e = None) → s = None ∨ e ≠ None.
Proof.
  intros H. destruct (decide (s = None)); [by left|].
  right. intros ?. by apply H.
Qed.

Lemma finish_idle i now h w :
  startTime h = None ∨ endTime h ≠ None →
  finish i now (h, w) = ((h, w), Normal ()).
Proof.
  intros H. unfold finish, mbind, method_bind, this; cbn.
  destruct H as [H|H].
  - by rewrite (bool_decide_eq_true_2 _ H).
  - by rewrite (bool_decide_eq_false_2 _ H), andb_false_r.
Qed.

Lemma finish_forced i now h w :
  startTime h ≠ None → endTime h = None →
  (finish i now (h, w)).1.1 = set_endTime (Some now) h
  ∧ emitted (finish i now (h, w)).1.2
    = emitted w ++ [reasoning_done (finalReasoning_of (power_user w) h)].
Proof.
  intros Hs He. unfold finish, mbind, method_bind, this; cbn.
  rewrite (bool_decide_eq_false_2 _ Hs), (bool_decide_eq_true_2 _ He). cbn.
  unfold emit, update_world; cbn.
  pose proof (updateTime_frame i (set_endTime (Some now) h)
    (add_emitted (reasoning_done (finalReasoning_of (power_user w) h)) w))
    as (H1 & H2 & _).
  destruct (updateTime _ _) as [σ' []]; cbn in *; by rewrite H1, H2.
Qed.

(** *** What a call can do to the timing fields and to the event log *)

Lemma run_call_initialTime (c : call) σ :
  initialTime (run_call c σ).1.1 = initialTime σ.1.
Proof.
  destruct σ as [h w], c as [r|i mc ct|i now|c' p']; cbn.
  - done.
  - destruct (returns_early h) eqn:E; [by rewrite process_early|].
    destruct (chat w !! i) as [m|] eqn:Em.
    + destruct (process_found i mc ct h w m E Em) as (w' & -> & _). cbn.
      apply ended_frame.
    + by rewrite process_missing.
  - destruct (decide (startTime h ≠ None ∧ endTime h = None)) as [[Hs He]|H].
    + destruct (finish_forced i now h w Hs He) as [-> _]. done.
    + rewrite finish_idle; [done|by apply not_pending].
  - done.
Qed.

(** Once both times are recorded, no call changes them. *)
Lemma run_call_final (c : call) σ :
  startTime σ.1 ≠ None → endTime σ.1 ≠ None →
  startTime (run_call c σ).1.1 = startTime σ.1
  ∧ endTime (run_call c σ).1.1 = endTime σ.1
  ∧ emitted (run_call c σ).1.2 = emitted σ.2.
Proof.
  destruct σ as [h w]; cbn. intros Hs He.
  destruct c as [r|i mc ct|i now|c' p']; cbn.
  - done.
  - destruct (returns_early h) eqn:E; [by rewrite process_early|].
    destruct (chat w !! i) as [m|] eqn:Em; [|by rewrite process_missing].
    destruct (process_found i mc ct h w m E Em) as (w' & -> & _ & Hev). cbn.
    assert (ends h w m mc = false) as Hends.
    { destruct (ends h w m mc) eqn:Hends; [|done].
      by apply ends_true in Hends as (_ & ? & _). }
    rewrite Hev, ended_endTime, Hends, app_nil_r.
    destruct (ended_frame h w m mc ct) as [-> _].
    by rewrite started_keeps.
  - rewrite finish_idle; [done|by right].
  - done.
Qed.

(** The event log grows by one event exactly when the end time gets
    recorded, and the end time is only recorded after the start time. *)
Lemma run_call_log (c : call) σ :
  (endTime σ.1 ≠ None → startTime σ.1 ≠ None) →
  (endTime (run_call c σ).1.1 ≠ None → startTime (run_call c σ).1.1 ≠ None)
  ∧ ∃ evs, emitted (run_call c σ).1.2 = emitted σ.2 ++ evs
      ∧ length evs
        = if bool_decide (endTime σ.1 = None
                          ∧ endTime (run_call c σ).1.1 ≠ None)
          then 1 else 0.
Proof.
  destruct σ as [h w]; cbn. intros Hinv.
  assert (∀ h' w', startTime h' = startTime h → endTime h' = endTime h →
    emitted w' = emitted w →
    (endTime h' ≠ None → startTime h' ≠ None)
    ∧ ∃ evs, emitted w' = emitted w ++ evs
        ∧ length evs = if bool_decide (endTime h = None ∧ endTime h' ≠ None)
                       then 1 else 0) as Hsame.
  { intros h' w' Hs He ->. rewrite Hs, He. split; [done|].
    exists []. rewrite app_nil_r. split; [done|].
    rewrite bool_decide_eq_false_2; [done|]. by intros [? ?]. }
  destruct c as [r|i mc ct|i now|c' p']; cbn.
  - by apply Hsame.
  - destruct (returns_early h) eqn:E;
      [rewrite process_early by done; by apply Hsame|].
    destruct (chat w !! i) as [m|] eqn:Em;
      [|rewrite process_missing by done; by apply Hsame].
    destruct (process_found i mc ct h w m E Em) as (w' & -> & _ & Hev). cbn.
    rewrite Hev, ended_endTime.
    destruct (ended_frame h w m mc ct) as [-> _].
    destruct (ends h w m mc) eqn:Hends.
    + apply ends_true in Hends as (Hs & He & _). split; [done|].
      eexists. split; [done|]. by rewrite bool_decide_eq_true_2.
    + split.
      * intros He. rewrite started_keeps; auto.
      * exists []. split; [done|].
        rewrite bool_decide_eq_false_2; [done|]. by intros [? ?].
  - destruct (decide (startTime h ≠ None ∧ endTime h = None)) as [[Hs He]|H].
    + destruct (finish_forced i now h w Hs He) as [-> ->]. cbn.
      split; [done|]. eexists. split; [done|].
      by rewrite bool_decide_eq_true_2.
    + rewrite finish_idle; [by apply Hsame|by apply not_pending].
  - by apply Hsame.
Qed.

(** *** Sessions *)

Lemma run_calls_app (cs1 cs2 : list call) σ :
  run_calls (cs1 ++ cs2) σ = run_calls cs2 (run_calls cs1 σ).
Proof. revert σ. induction cs1 as [|c cs1 IH]; intros σ; cbn; [done|apply IH]. Qed.

Lemma run_calls_initialTime (cs : list call) σ :
  initialTime (run_calls cs σ).1 = initialTime σ.1.
Proof.
  revert σ. induction cs as [|c cs IH]; intros σ; cbn; [done|].
  by rewrite IH, run_call_initialTime.
Qed.

Lemma run_calls_final (cs : list call) σ :
  startTime σ.1 ≠ None → endTime σ.1 ≠ None →
  startTime (run_calls cs σ).1 = startTime σ.1
  ∧ endTime (run_calls cs σ).1 = endTime σ.1
  ∧ emitted (run_calls cs σ).2 = emitted σ.2.
Proof.
  revert σ. induction cs as [|c cs IH]; intros σ Hs He; cbn; [done|].
  destruct (run_call_final c σ Hs He) as (Hs1 & He1 & Hev1).
  rewrite <- Hs1, <- He1, <- Hev1. apply IH; congruence.
Qed.

Lemma run_calls_log (cs : list call) σ :
  (endTime σ.1 ≠ None → startTime σ.1 ≠ None) →
  (endTime (run_calls cs σ).1 ≠ None → startTime (run_calls cs σ).1 ≠ None)
  ∧ ∃ evs, emitted (run_calls cs σ).2 = emitted σ.2 ++ evs
      ∧ length evs
        = if bool_decide (endTime σ.1 = None
                          ∧ endTime (run_calls cs σ).1 ≠ None)
          then 1 else 0.
Proof.
  revert σ. induction cs as [|c cs IH]; intros σ Hinv; cbn.
  { split; [done|]. exists []. rewrite app_nil_r. split; [done|].
    rewrite bool_decide_eq_false_2; [done|]. by intros [? ?]. }
  destruct (run_call_log c σ Hinv) as (Hinv1 & evs1 & Hev1 & Hlen1).
  destruct (IH _ Hinv1) as (Hinv' & evs2 & Hev2 & Hlen2).
  split; [done|]. exists (evs1 ++ evs2).
  rewrite Hev2, Hev1, <- app_assoc. split; [done|].
  rewrite length_app, Hlen1, Hlen2. clear Hev1 Hev2 Hlen1 Hlen2 IH.
  destruct (decide (endTime (run_call c σ).1.1 = None)) as [He1|He1].
  - assert (endTime σ.1 = None) as He0.
    { destruct (decide (endTime σ.1 = None)) as [|He0]; [done|].
      destruct (run_call_final c σ (Hinv He0) He0) as (_ & He & _). congruence. }
    rewrite (bool_decide_eq_false_2 (_ ∧ endTime (run_call c σ).1.1 ≠ None))
      by (by intros [_ ?]).
    cbn. by rewrite (bool_decide_ext _ (endTime σ.1 = None
      ∧ endTime (run_calls cs (run_call c σ).1).1 ≠ None)) by tauto.
  - destruct (run_calls_final cs _ (Hinv1 He1) He1) as (_ & He' & _).
    rewrite (bool_decide_eq_false_2 (endTime (run_call c σ).1.1 = None ∧ _))
      by (by intros [? _]).
    rewrite Nat.add_0_r.
    by rewrite (bool_decide_ext _ (endTime σ.1 = None
      ∧ endTime (run_calls cs (run_call c σ).1).1 ≠ None)) by (rewrite He'; tauto).
Qed.

Lemma session_started_before_ended ty timeStarted w0 (cs : list call) :
  endTime (session ty timeStarted w0 cs).1 ≠ None →
  startTime (session ty timeStarted w0 cs).1 ≠ None.
Proof. unfold session. by apply run_calls_log. Qed.

Lemma session_initialTime ty timeStarted w0 (cs : list call) :
  initialTime (session ty timeStarted w0 cs).1 = timeStarted.
Proof. unfold session. by rewrite run_calls_initialTime. Qed.

(** ** The claims about the tracker *)

(** C1, as amended: in an update cycle in which the message body changed,
    on a handler that has reasoning text or a hidden-reasoning model, for
    a message of the chat, when [startTime] is set, [endTime] is not, and
    the model is hidden-reasoning or the post-processed reasoning text
    equals the one stored on the message, [process] sets [endTime] to the
    current timestamp of the cycle, leaves [startTime] as it is, and emits
    the reasoning-finished notification with the final reasoning text and
    a duration resolver, which yields the current timestamp minus
    [startTime]. *)
Theorem process_ends_reasoning i currentTime h w m :
  chat w !! i = Some m →
  reasoning h ≠ [] ∨ isHidden h = true →
  startTime h ≠ None → endTime h = None →
  isHidden h = true ∨ stored m = Some (finalReasoning h w) →
  let σ' := (process i true currentTime (h, w)).1 in
  endTime σ'.1 = Some currentTime
  ∧ startTime σ'.1 = startTime h
  ∧ emitted σ'.2 = emitted w ++ [reasoning_done (finalReasoning h w)]
  ∧ ev_getDuration (reasoning_done (finalReasoning h w)) σ'.1
    = (λ s, currentTime - s)%Z <$> startTime h.
Proof.
  intros Em Hr Hs He Hsame σ'.
  assert (returns_early h = false) as E.
  { unfold returns_early. destruct Hr as [Hr| ->]; [|by rewrite andb_false_r].
    by destruct (reasoning h). }
  assert (ends h w m true = true) as Hends.
  { unfold ends. rewrite started_keeps by done.
    rewrite (bool_decide_eq_false_2 _ Hs), (bool_decide_eq_true_2 _ He).
    rewrite !andb_true_r. destruct Hsame as [-> | Hsame]; [done|].
    unfold reasoningChanged. rewrite (bool_decide_eq_true_2 _ Hsame).
    by rewrite orb_true_r. }
  destruct (process_found i true currentTime h w m E Em) as (w' & Hp & _ & Hev).
  subst σ'. rewrite Hp; cbn. rewrite Hev, Hends.
  unfold getDuration. rewrite ended_endTime, Hends.
  destruct (ended_frame h w m true currentTime) as [-> _].
  rewrite started_keeps by done.
  by destruct (startTime h).
Qed.

(** C2: in a session, a sequence of calls on a new handler followed by a
    last [finish], the reasoning-finished notification is emitted once
    if [startTime] got set and not at all if it did not; a [finish] that
    finds [startTime] set and [endTime] not set sets [endTime] to the
    current time and emits the notification; a [finish] that finds
    [endTime] set changes nothing. *)
Theorem notification_exactly_once ty timeStarted w0 (cs : list call) i now :
  let σ := session ty timeStarted w0 cs in
  let σ' := (finish i now σ).1 in
  (∃ evs, emitted σ'.2 = emitted w0 ++ evs
     ∧ length evs = if bool_decide (startTime σ'.1 = None) then 0 else 1)
  ∧ (startTime σ.1 ≠ None → endTime σ.1 = None →
     endTime σ'.1 = Some now
     ∧ emitted σ'.2
       = emitted σ.2 ++ [reasoning_done (finalReasoning_of (power_user σ.2) σ.1)])
  ∧ (endTime σ.1 ≠ None → σ' = σ)
  ∧ (startTime σ.1 = None → emitted σ'.2 = emitted w0).
Proof.
  intros σ σ'.
  assert (σ' = session ty timeStarted w0 (cs ++ [Finish i now])) as Hσ'.
  { unfold session. by rewrite run_calls_app. }
  destruct (run_calls_log (cs ++ [Finish i now])
              (constructor ty timeStarted w0, w0)) as (Hinv & evs & Hev & Hlen);
    [done|].
  fold (session ty timeStarted w0 (cs ++ [Finish i now])) in Hinv, Hev, Hlen.
  rewrite <- Hσ' in Hinv, Hev, Hlen. cbn in Hev, Hlen.
  assert (startTime σ'.1 ≠ None → endTime σ'.1 ≠ None) as Hdone.
  { subst σ'. destruct σ as [h w] eqn:Eσ. intros Hs.
    destruct (decide (startTime h ≠ None ∧ endTime h = None)) as [[Hs0 He0]|H].
    - by destruct (finish_forced i now h w Hs0 He0) as [-> _].
    - apply not_pending in H. rewrite finish_idle in Hs |- * by done.
      destruct H as [H|H]; [|done]. cbn in Hs. congruence. }
  split; [|split; [|split]].
  - exists evs. split; [done|]. rewrite Hlen.
    destruct (decide (startTime σ'.1 = None)) as [Hn|Hn].
    + rewrite (bool_decide_eq_true_2 _ Hn), bool_decide_eq_false_2; [done|].
      intros [_ He]. by apply Hinv in He.
    + rewrite (bool_decide_eq_false_2 _ Hn), bool_decide_eq_true_2; [done|].
      split; [done|auto].
  - intros Hs He. subst σ'. destruct σ as [h w].
    destruct (finish_forced i now h w Hs He) as [-> ->]. done.
  - intros He. subst σ'. destruct σ as [h w]. rewrite finish_idle; [done|by right].
  - intros Hs. assert (startTime σ'.1 = None) as Hs'.
    { subst σ'. destruct σ as [h w]. rewrite finish_idle; [done|by left]. }
    assert (length evs = 0) as Hnil.
    { rewrite Hlen, bool_decide_eq_false_2; [done|].
      intros [_ He]. by apply Hinv in He. }
    destruct evs; [|done]. by rewrite Hev, app_nil_r.
Qed.

(** C3, as amended: in an update cycle, for a message of the chat, that
    finds reasoning text on the handler, no [startTime], and a
    post-processed text (the accumulated text after the regex hook and,
    under trim-spaces, trimmed: the text the cycle stores) that differs
    from the one stored on the message, [process] sets [startTime] to the
    time the generation started, the [timeStarted] given to the
    constructor, whatever the current timestamp of the cycle. *)
Theorem process_starts_at_initial_time ty timeStarted w0 (cs : list call)
    i mesChanged currentTime m :
  let σ := session ty timeStarted w0 cs in
  chat σ.2 !! i = Some m →
  reasoning σ.1 ≠ [] →
  stored m ≠ Some (finalReasoning σ.1 σ.2) →
  startTime σ.1 = None →
  startTime (process i mesChanged currentTime σ).1.1 = Some timeStarted.
Proof.
  intros σ Em Hr Hdiff Hs.
  pose proof (session_initialTime ty timeStarted w0 cs) as Hinit.
  fold σ in Hinit. destruct σ as [h w]; cbn in *.
  assert (returns_early h = false) as E.
  { unfold returns_early. by destruct (reasoning h). }
  destruct (process_found i mesChanged currentTime h w m E Em) as (w' & -> & _).
  cbn. destruct (ended_frame h w m mesChanged currentTime) as [-> _].
  rewrite started_startTime. unfold reasoningChanged.
  rewrite (bool_decide_eq_false_2 _ Hdiff), (bool_decide_eq_true_2 _ Hs).
  rewrite orb_true_r. cbn. by rewrite Hinit.
Qed.

(** C4: once [endTime] is set in a session, no further call (storing
    reasoning, an update cycle, the end of the stream, changes made to
    the chat and the settings elsewhere) changes [startTime] or
    [endTime]; [getDuration], which is [endTime] minus [startTime], keeps
    its value. *)
Theorem timing_is_final ty timeStarted w0 (cs further : list call) :
  let σ := session ty timeStarted w0 cs in
  endTime σ.1 ≠ None →
  let σ' := run_calls further σ in
  startTime σ'.1 = startTime σ.1
  ∧ endTime σ'.1 = endTime σ.1
  ∧ getDuration σ'.1 = getDuration σ.1
  ∧ ∃ s e, startTime σ.1 = Some s ∧ endTime σ.1 = Some e
      ∧ getDuration σ'.1 = Some (e - s)%Z.
Proof.
  intros σ He σ'.
  pose proof (session_started_before_ended ty timeStarted w0 cs He) as Hs.
  fold σ in Hs.
  destruct (run_calls_final further σ Hs He) as (Hs' & He' & _).
  fold σ' in Hs', He'. unfold getDuration. rewrite Hs', He'.
  repeat split.
  destruct (startTime σ.1) as [s|]; [|done].
  destruct (endTime σ.1) as [e|]; [|done]. by exists s, e.
Qed.

End tracker.

Section tracker_examples.
Import ReasoningHandler.

Lemma process_ends_reasoning_witness :
  chat (example_world (Some (lit "abc"))) !! 0
  = Some (example_message (Some (lit "abc")))
  ∧ endTime (@process no_hooks 0 true 5000
       (example_handler (lit "abc") (Some 1000%Z),
        example_world (Some (lit "abc")))).1.1 = Some 5000%Z
  ∧ emitted (@process no_hooks 0 true 5000
       (example_handler (lit "abc") (Some 1000%Z),
        example_world (Some (lit "abc")))).1.2 = [reasoning_done (lit "abc")].
Proof.
  split; [reflexivity|].
  destruct (@process_ends_reasoning no_hooks 0 5000
    (example_handler (lit "abc") (Some 1000%Z))
    (example_world (Some (lit "abc")))
    (example_message (Some (lit "abc")))) as (H1 & _ & H2 & _).
  - reflexivity.
  - left. discriminate.
  - discriminate.
  - reflexivity.
  - right. vm_compute. reflexivity.
  - split; [exact H1|]. etransitivity; [exact H2|]. vm_compute. reflexivity.
Defined.

(** The claim C1 as the specification states it, with the message body
    unchanged in the cycle, fails: the start time is set, the end time is
    not, the reasoning text is the stored one, and [process] neither sets
    the end time nor emits anything. *)
Lemma process_stable_body_counterexample :
  startTime (example_handler (lit "abc") (Some 1000%Z)) = Some 1000%Z
  ∧ endTime (example_handler (lit "abc") (Some 1000%Z)) = None
  ∧ stored (example_message (Some (lit "abc")))
    = Some (@finalReasoning no_hooks
              (example_handler (lit "abc") (Some 1000%Z))
              (example_world (Some (lit "abc"))))
  ∧ endTime (@process no_hooks 0 false 5000
       (example_handler (lit "abc") (Some 1000%Z),
        example_world (Some (lit "abc")))).1.1 = None
  ∧ emitted (@process no_hooks 0 false 5000
       (example_handler (lit "abc") (Some 1000%Z),
        example_world (Some (lit "abc")))).1.2 = [].
Proof. repeat split; vm_compute; reflexivity. Qed.

(** A handler without reasoning text, for a model that is not
    hidden-reasoning, returns from [process] at once: nothing ends, even
    when the message body changed. *)
Example process_without_reasoning :
  @process no_hooks 0 true 5000
    (example_handler [] (Some 1000%Z), example_world (Some []))
  = ((example_handler [] (Some 1000%Z), example_world (Some [])), Normal ()).
Proof. vm_compute. reflexivity. Qed.

Lemma notification_exactly_once_witness :
  emitted (finish 0 9000
    (@session no_hooks (lit "normal") 1000 (example_world None)
       [UpdateReasoning (Some (lit "thinking..."));
        Process 0 false 2000;
        Process 0 true 5000;
        Process 0 true 6000])).1.2
  = [reasoning_done (lit "thinking...")]
  ∧ emitted (finish 0 9000
    (@session no_hooks (lit "normal") 1000 (example_world None)
       [UpdateReasoning (Some (lit "thinking..."));
        Process 0 false 2000])).1.2
  = [reasoning_done (lit "thinking...")].
Proof.
  split.
  - destruct (@notification_exactly_once no_hooks (lit "normal") 1000
      (example_world None)
      [UpdateReasoning (Some (lit "thinking..."));
       Process 0 false 2000; Process 0 true 5000; Process 0 true 6000]
      0 9000) as (_ & _ & H & _).
    cbv zeta in H. rewrite H; [vm_compute; reflexivity|vm_compute; discriminate].
  - destruct (@notification_exactly_once no_hooks (lit "normal") 1000
      (example_world None)
      [UpdateReasoning (Some (lit "thinking...")); Process 0 false 2000]
      0 9000) as (_ & H & _).
    cbv zeta in H.
    destruct H as [_ H]; [vm_compute; discriminate|vm_compute; reflexivity|].
    rewrite H. vm_compute. reflexivity.
Defined.

Lemma process_starts_at_initial_time_witness :
  startTime (@process no_hooks 0 false 2000
    (@session no_hooks (lit "normal") 1000 (example_world None)
       [UpdateReasoning (Some (lit "thinking..."))])).1.1 = Some 1000%Z.
Proof.
  apply (@process_starts_at_initial_time no_hooks (lit "normal") 1000
           (example_world None) [UpdateReasoning (Some (lit "thinking..."))]
           0 false 2000 (example_message None));
    [vm_compute; reflexivity|vm_compute; discriminate
    |vm_compute; discriminate|vm_compute; reflexivity].
Defined.

(** The claim C3 as the specification states it, on the accumulated text,
    fails under trim-spaces: the accumulated text [" abc"] is not empty
    and differs from the stored ["abc"], the start time is not set, and
    [process] leaves it unset, because the text it compares is the
    trimmed one. *)
Lemma process_untrimmed_text_counterexample :
  chat (@session no_hooks (lit "normal") 1000
          (trimming_world (Some (lit "abc")))
          [UpdateReasoning (Some (lit " abc"))]).2 !! 0
  = Some (example_message (Some (lit "abc")))
  ∧ reasoning (@session no_hooks (lit "normal") 1000
                 (trimming_world (Some (lit "abc")))
                 [UpdateReasoning (Some (lit " abc"))]).1
    = lit " abc"
  ∧ lit " abc" ≠ []
  ∧ stored (example_message (Some (lit "abc"))) = Some (lit "abc")
  ∧ lit " abc" ≠ lit "abc"
  ∧ startTime (@session no_hooks (lit "normal") 1000
                 (trimming_world (Some (lit "abc")))
                 [UpdateReasoning (Some (lit " abc"))]).1
    = None
  ∧ startTime (@process no_hooks 0 false 2000
                 (@session no_hooks (lit "normal") 1000
                    (trimming_world (Some (lit "abc")))
                    [UpdateReasoning (Some (lit " abc"))])).1.1
    = None.
Proof.
  repeat split; try (vm_compute; reflexivity); vm_compute; discriminate.
Qed.

Lemma timing_is_final_witness :
  getDuration (@run_calls no_hooks
    [UpdateReasoning (Some (lit "more")); Process 0 true 7000; Finish 0 9000]
    (@session no_hooks (lit "normal") 1000 (example_world None)
       [UpdateReasoning (Some (lit "thinking..."));
        Process 0 false 2000;
        Process 0 true 5000])).1
  = Some 4000%Z.
Proof.
  destruct (@timing_is_final no_hooks (lit "normal") 1000 (example_world None)
    [UpdateReasoning (Some (lit "thinking..."));
     Process 0 false 2000; Process 0 true 5000]
    [UpdateReasoning (Some (lit "more")); Process 0 true 7000; Finish 0 9000]
    ltac:(vm_compute; discriminate)) as (_ & _ & H & _).
  cbv zeta in H. rewrite H. vm_compute. reflexivity.
Defined.

(** The scenario of the specification: reasoning appears in the second
    cycle, the body changes with stable reasoning in the fifth. *)
Example session_scenario :
  let σ := @session no_hooks (lit "normal") 1000 (example_world None)
    [Process 0 true 1100;
     UpdateReasoning (Some (lit "thinking...")); Process 0 false 1200;
     UpdateReasoning (Some (lit "thinking... more")); Process 0 false 1300;
     Process 0 false 1400;
     Process 0 true 1500] in
  startTime σ.1 = Some 1000%Z ∧ endTime σ.1 = Some 1500%Z
  ∧ getDuration σ.1 = Some 500%Z
  ∧ emitted σ.2 = [reasoning_done (lit "thinking... more")].
Proof. repeat split; vm_compute; reflexivity. Qed.

(** With a hidden-reasoning model no reasoning text is needed: the first
    cycle starts the reasoning, and ends it when the body changed. *)
Example hidden_model_session :
  isHiddenReasoningModel (main_api hidden_world) (oai_settings hidden_world)
  = true
  ∧ isHiddenReasoningModel (main_api (example_world None))
      (oai_settings (example_world None)) = false
  ∧ let σ := @session no_hooks (lit "normal") 1000 hidden_world
               [Process 0 false 1200; Process 0 true 1500] in
    startTime σ.1 = Some 1000%Z ∧ endTime σ.1 = Some 1500%Z
    ∧ emitted σ.2 = [reasoning_done []].
Proof. repeat split; vm_compute; reflexivity. Qed.

End tracker_examples.

(** ** The prompt-injection counter *)

Section counter.
Import PromptReasoning.
Context `{hooks : Collaborators}.

Implicit Types (this : PromptReasoning.t) (power_user : power_user_t).

Lemma addToMessage_skipped power_user content r isPrefix this :
  r = [] ∨ r = REASONING_PLACEHOLDER →
  addToMessage power_user content r isPrefix this = (this, content).
Proof.
  intros Hr. unfold addToMessage. case_match; [done|].
  by destruct Hr as [-> | ->].
Qed.

Lemma isLimitReached_true power_user this :
  isLimitReached power_user this = true
  ↔ add_to_prompts (reasoning power_user) = false
    ∨ (max_additions (reasoning power_user) ≤ counter this)%Z.
Proof.
  unfold isLimitReached. rewrite <- Z.leb_le.
  destruct (add_to_prompts _); cbn.
  - split; [by right|]. by intros [?|?].
  - split; [by left|done].
Qed.

(** The guard of [addToMessage] for a message that is not the prefix is
    [isLimitReached]. *)
Lemma addToMessage_limited power_user content r this :
  isLimitReached power_user this = true →
  addToMessage power_user content r false this = (this, content).
Proof.
  intros H. unfold addToMessage, isLimitReached in *. cbn.
  by destruct (add_to_prompts _); cbn in *; [rewrite H|].
Qed.

Lemma real_reasoning r :
  r ≠ [] → r ≠ REASONING_PLACEHOLDER →
  negb (truthy r) || JS.eqb r REASONING_PLACEHOLDER = false.
Proof.
  intros H1 H2. destruct r; [done|]. cbn. unfold JS.eqb.
  by rewrite bool_decide_eq_false_2.
Qed.

Lemma addToMessage_added power_user content r this :
  add_to_prompts (reasoning power_user) = true →
  (counter this < max_additions (reasoning power_user))%Z →
  r ≠ [] → r ≠ REASONING_PLACEHOLDER →
  addToMessage power_user content r false this
  = ({| counter := counter this + 1 |},
     substituteParams (or_empty (prefix (reasoning power_user))) ++ r
       ++ substituteParams (or_empty (suffix (reasoning power_user)))
       ++ substituteParams (or_empty (separator (reasoning power_user)))
       ++ content).
Proof.
  intros Ha Hc H1 H2. unfold addToMessage. rewrite Ha.
  apply Z.leb_gt in Hc. rewrite Hc. cbn. by rewrite real_reasoning.
Qed.

(** C9: with add-to-prompts enabled and at most 2 additions, three calls
    of [addToMessage] in a row on a new counter, not for the prefix, with
    reasoning that is neither empty nor the placeholder: the first two
    return prefix, reasoning, suffix, separator and content in this
    order, the variable parts after macro substitution, and bring the
    counter to 2; the third returns its content unchanged.  Whatever the
    settings and the counter, a call with empty or placeholder reasoning
    returns the content and leaves the counter alone. *)
Theorem addToMessage_up_to_two power_user c1 c2 c3 r1 r2 r3 :
  add_to_prompts (reasoning power_user) = true →
  max_additions (reasoning power_user) = 2%Z →
  r1 ≠ [] → r1 ≠ REASONING_PLACEHOLDER →
  r2 ≠ [] → r2 ≠ REASONING_PLACEHOLDER →
  r3 ≠ [] → r3 ≠ REASONING_PLACEHOLDER →
  let template content r :=
    substituteParams (or_empty (prefix (reasoning power_user))) ++ r
      ++ substituteParams (or_empty (suffix (reasoning power_user)))
      ++ substituteParams (or_empty (separator (reasoning power_user)))
      ++ content in
  let first := addToMessage power_user c1 r1 false constructor in
  let second := addToMessage power_user c2 r2 false first.1 in
  let third := addToMessage power_user c3 r3 false second.1 in
  first = ({| counter := 1 |}, template c1 r1)
  ∧ second = ({| counter := 2 |}, template c2 r2)
  ∧ third = ({| counter := 2 |}, c3)
  ∧ ∀ power_user' content r isPrefix this,
      r = [] ∨ r = REASONING_PLACEHOLDER →
      addToMessage power_user' content r isPrefix this = (this, content).
Proof.
  intros Ha Hm ?????? template first second third.
  assert (first = ({| counter := 1 |}, template c1 r1)) as Hfirst.
  { subst first. rewrite addToMessage_added; try done. rewrite Hm. done. }
  assert (second = ({| counter := 2 |}, template c2 r2)) as Hsecond.
  { subst second. rewrite Hfirst. rewrite addToMessage_added; try done.
    rewrite Hm. done. }
  split; [done|]. split; [done|]. split.
  - subst third. rewrite Hsecond. apply addToMessage_limited.
    apply isLimitReached_true. right. rewrite Hm. done.
  - intros. by apply addToMessage_skipped.
Qed.

(** C10: a call of [addToMessage] for the prefix, with reasoning that is
    neither empty nor the placeholder, injects the reasoning whatever
    add-to-prompts and the counter are, and increments the counter, which
    a later call that is not for the prefix finds incremented; with an
    empty content the result is the prefix and the reasoning alone. *)
Theorem addToMessage_for_prefix power_user content r this :
  r ≠ [] → r ≠ REASONING_PLACEHOLDER →
  addToMessage power_user content r true this
  = ({| counter := counter this + 1 |},
     if truthy content
     then substituteParams (or_empty (prefix (reasoning power_user))) ++ r
            ++ substituteParams (or_empty (suffix (reasoning power_user)))
            ++ substituteParams (or_empty (separator (reasoning power_user)))
            ++ content
     else substituteParams (or_empty (prefix (reasoning power_user))) ++ r)
  ∧ ((max_additions (reasoning power_user) ≤ counter this + 1)%Z →
     ∀ content' r',
       addToMessage power_user content' r' false
         (addToMessage power_user content r true this).1
       = ((addToMessage power_user content r true this).1, content')).
Proof.
  intros H1 H2.
  assert (addToMessage power_user content r true this
    = ({| counter := counter this + 1 |},
       if truthy content
       then substituteParams (or_empty (prefix (reasoning power_user))) ++ r
              ++ substituteParams (or_empty (suffix (reasoning power_user)))
              ++ substituteParams (or_empty (separator (reasoning power_user)))
              ++ content
       else substituteParams (or_empty (prefix (reasoning power_user))) ++ r))
    as Hadd.
  { unfold addToMessage. cbn. rewrite real_reasoning by done.
    by destruct (truthy content). }
  split; [done|]. intros Hmax content' r'. rewrite Hadd. cbn.
  apply addToMessage_limited. apply isLimitReached_true. by right.
Qed.

End counter.

Section counter_examples.
Import PromptReasoning.

Lemma addToMessage_up_to_two_witness :
  (@addToMessage no_hooks (example_settings "<think>" "</think>" false)
     (lit "Hello") (lit "hm") false constructor).2
  = lit "<think>hm</think>|Hello"
  ∧ (@addToMessage no_hooks (example_settings "<think>" "</think>" false)
       (lit "Bye") (lit "ok") false {| counter := 2 |}).2
    = lit "Bye".
Proof.
  destruct (@addToMessage_up_to_two no_hooks
    (example_settings "<think>" "</think>" false)
    (lit "Hello") (lit "Hi") (lit "Bye") (lit "hm") (lit "well") (lit "ok"))
    as (H1 & H2 & H3 & _); try discriminate; try reflexivity.
  cbv zeta in H1, H2, H3. split.
  - rewrite H1. vm_compute. reflexivity.
  - rewrite H2 in H3. cbn [fst] in H3. rewrite H3. reflexivity.
Defined.

Lemma addToMessage_for_prefix_witness :
  @addToMessage no_hooks (example_settings "<think>" "</think>" false)
    [] (lit "hm") true {| counter := 2 |}
  = ({| counter := 3 |}, lit "<think>hm").
Proof.
  destruct (@addToMessage_for_prefix no_hooks
    (example_settings "<think>" "</think>" false) [] (lit "hm")
    {| counter := 2 |}) as [H _]; try discriminate.
  rewrite H. vm_compute. reflexivity.
Defined.

End counter_examples.

(** ** The pattern of the parser *)

Section pattern.
Import RegExp.

Lemma metacharacter_identity_escape c :
  isRegexMetacharacter c = true → isIdentityEscape c = true.
Proof.
  unfold isRegexMetacharacter, isIdentityEscape, isSyntaxCharacter.
  intros H. split_code_unit c. done.
Qed.

Lemma not_metacharacter c :
  isRegexMetacharacter c = false →
  (c =? 92)%N = false ∧ (c =? 46)%N = false ∧ (c =? 42)%N = false
  ∧ (c =? 63)%N = false ∧ (c =? 40)%N = false ∧ (c =? 41)%N = false
  ∧ isSyntaxCharacter c = false.
Proof.
  unfold isRegexMetacharacter, isSyntaxCharacter.
  intros H. split_code_unit c. done.
Qed.

Lemma tokenize_escaped p rest :
  tokenize (escapeRegex p ++ rest)
  = ts ← tokenize rest; Normal (map (λ c, TAtom (Char c)) p ++ ts).
Proof.
  induction p as [|c p IH]; cbn [escapeRegex map app].
  - by destruct (tokenize rest).
  - destruct (isRegexMetacharacter c) eqn:Hc.
    + cbn. rewrite (metacharacter_identity_escape c Hc), IH.
      by destruct (tokenize rest).
    + destruct (not_metacharacter c Hc) as (H1 & H2 & H3 & H4 & H5 & H6 & H7).
      cbn. rewrite H1, H2, H3, H4, H5, H6, H7, IH.
      by destruct (tokenize rest).
Qed.

Lemma pieces_atom a ts :
  (∀ ts', ts ≠ TStar :: ts') →
  pieces (TAtom a :: ts) = '(ps, r) ← pieces ts; Normal (Piece a Once :: ps, r).
Proof. intros H. destruct ts as [|[] ts]; try done. by destruct (H ts). Qed.

Lemma pieces_chars p ts :
  (∀ ts', ts ≠ TStar :: ts') →
  pieces (map (λ c, TAtom (Char c)) p ++ ts)
  = '(ps, r) ← pieces ts; Normal (chars p ++ ps, r).
Proof.
  intros H. induction p as [|c p IH]; cbn [map app].
  - by destruct (pieces ts) as [[]|].
  - rewrite pieces_atom, IH.
    + by destruct (pieces ts) as [[]|].
    + by destruct p.
Qed.

Lemma tokenize_pattern p s :
  tokenize (escapeRegex p ++ lit "(.*?)" ++ escapeRegex s)
  = Normal (map (λ c, TAtom (Char c)) p
            ++ TOpen :: TAtom Dot :: TStar :: TQuestion :: TClose
            :: map (λ c, TAtom (Char c)) s).
Proof.
  assert (tokenize (escapeRegex s) = Normal (map (λ c, TAtom (Char c)) s))
    as Hs.
  { rewrite <- (app_nil_r (escapeRegex s)), tokenize_escaped. cbn.
    by rewrite app_nil_r. }
  rewrite tokenize_escaped.
  change (lit "(.*?)") with [40; 46; 42; 63; 41]%N.
  cbn. by rewrite Hs.
Qed.

(** The pattern that [parseReasoningFromString] builds always compiles,
    and it compiles to the literal prefix, the lazy capture and the
    literal suffix: the escaping leaves no metacharacter of the settings
    to the pattern syntax. *)
Lemma compile_escaped p s :
  compile (escapeRegex p ++ lit "(.*?)" ++ escapeRegex s) (lit "s")
  = Normal (span_regex p s).
Proof.
  unfold compile. rewrite tokenize_pattern.
  change (flags_dotAll (lit "s")) with (Normal true). cbn [mbind completion_bind JS.bind].
  rewrite pieces_chars by done. cbn.
  rewrite <- (app_nil_r (map _ s)), pieces_chars by done. cbn.
  by rewrite !app_nil_r.
Qed.

End pattern.

(** ** The matcher on the pattern of the parser *)

Section matcher.
Import RegExp.
Context {R : Type}.
Implicit Types (k : jsstring → option R) (input rest : jsstring).

Lemma match_chars_app dot p k rest :
  match_pieces dot (chars p) k (p ++ rest) = k rest.
Proof.
  induction p as [|c p IH]; cbn; [done|]. by rewrite N.eqb_refl.
Qed.

Lemma match_chars_Some dot p k input x :
  match_pieces dot (chars p) k input = Some x →
  ∃ rest, input = p ++ rest ∧ k rest = Some x.
Proof.
  revert input. induction p as [|c p IH]; intros input; cbn.
  - intros H. by exists input.
  - destruct input as [|d input]; [done|].
    destruct (N.eqb_spec d c) as [->|]; [|done].
    intros (rest & -> & Hk)%IH. by exists rest.
Qed.

Lemma lazy_star_unfold k input :
  match_star true Dot false k input
  = match k input with
    | Some x => Some x
    | None =>
        match input with
        | _ :: input' => match_star true Dot false k input'
        | [] => None
        end
    end.
Proof. by destruct input. Qed.

(** The lazy star hands over to the rest of the pattern at the first
    position from which the rest matches. *)
Lemma lazy_star_Some k input x :
  match_star true Dot false k input = Some x →
  ∃ r rest, input = r ++ rest ∧ k rest = Some x
    ∧ ∀ r' rest', input = r' ++ rest' → length r' < length r →
        k rest' = None.
Proof.
  induction input as [|c input IH]; rewrite lazy_star_unfold.
  - destruct (k []) eqn:Hk; [|done]. intros [= ->].
    exists [], []. repeat split; [done|]. cbn. lia.
  - destruct (k (c :: input)) eqn:Hk.
    + intros [= ->]. exists [], (c :: input). repeat split; [done|]. cbn. lia.
    + intros (r & rest & -> & Hrest & Hmin)%IH.
      exists (c :: r), rest. repeat split; [done|].
      intros [|c' r'] rest' Heq Hlen; cbn in *.
      * by subst rest'.
      * injection Heq as -> Heq. apply (Hmin r'); [done|lia].
Qed.

Lemma lazy_star_None k input :
  match_star true Dot false k input = None →
  ∀ r rest, input = r ++ rest → k rest = None.
Proof.
  induction input as [|c input IH]; rewrite lazy_star_unfold.
  - destruct (k []) eqn:Hk; [done|]. intros _ r rest Heq.
    symmetry in Heq. apply app_eq_nil in Heq as [_ ->]. done.
  - destruct (k (c :: input)) eqn:Hk; [done|].
    intros H [|c' r] rest Heq; cbn in *.
    + by subst rest.
    + injection Heq as -> Heq. by apply (IH H r).
Qed.

End matcher.

Section span.
Import RegExp.
Implicit Types (p s str input a r b : jsstring).

(** The rest of the pattern after the capture: the literal suffix, then
    the result. *)
Lemma match_here_span p s input :
  match_here (span_regex p s) input
  = match_pieces true (chars p) (λ s1,
      match_star true Dot false (λ s2,
        match_pieces true (chars s) (λ s3,
          Some (take (length s1 - length s2) s1, s3)) s2) s1) input.
Proof. done. Qed.

Lemma match_here_Some p s input cap rest :
  match_here (span_regex p s) input = Some (cap, rest) →
  input = p ++ cap ++ s ++ rest
  ∧ ∀ r' b', input = p ++ r' ++ s ++ b' → length cap ≤ length r'.
Proof.
  rewrite match_here_span.
  intros (s1 & -> & H)%match_chars_Some.
  apply lazy_star_Some in H as (r & s2 & -> & H & Hmin).
  apply match_chars_Some in H as (s3 & -> & [= <- <-]).
  rewrite length_app, Nat.add_sub, take_app_length. split; [done|].
  intros r' b' Heq%app_inv_head.
  destruct (decide (length r ≤ length r')) as [|Hlt]; [done|].
  specialize (Hmin r' (s ++ b') Heq ltac:(lia)).
  by rewrite match_chars_app in Hmin.
Qed.

Lemma match_here_None p s input :
  match_here (span_regex p s) input = None →
  ∀ r b, input ≠ p ++ r ++ s ++ b.
Proof.
  rewrite match_here_span. intros H r b ->.
  rewrite match_chars_app in H.
  pose proof (lazy_star_None _ _ H r (s ++ b) eq_refl) as H'. cbn in H'.
  by rewrite match_chars_app in H'.
Qed.

Lemma search_Some re input i m :
  search re input i = Some m →
  ∃ a tail cap rest,
    input = a ++ tail ∧ index m = i + length a
    ∧ match_here re tail = Some (cap, rest)
    ∧ matched m = take (length tail - length rest) tail
    ∧ capture m = cap
    ∧ ∀ a' tail', input = a' ++ tail' → length a' < length a →
        match_here re tail' = None.
Proof.
  revert i. induction input as [|c input IH]; intros i; cbn.
  - destruct (match_here re []) as [[cap rest]|] eqn:Hm; [|done].
    intros [= <-]. exists [], [], cap, rest. cbn.
    repeat split; [lia|done|]. intros ??? Hlen. lia.
  - destruct (match_here re (c :: input)) as [[cap rest]|] eqn:Hm.
    + intros [= <-]. exists [], (c :: input), cap, rest. cbn.
      repeat split; [lia|done|]. intros ??? Hlen. lia.
    + intros (a & tail & cap & rest & -> & Hi & Hh & Hmd & Hcap & Hmin)%IH.
      exists (c :: a), tail, cap, rest. cbn.
      repeat split; [lia|done..|].
      intros [|c' a'] tail' Heq Hlen; cbn in *.
      * by subst tail'.
      * injection Heq as -> Heq. apply (Hmin a'); [done|lia].
Qed.

Lemma search_None re input i :
  search re input i = None →
  ∀ a tail, input = a ++ tail → match_here re tail = None.
Proof.
  revert i. induction input as [|c input IH]; intros i; cbn.
  - destruct (match_here re []) as [[cap rest]|] eqn:Hm; [done|].
    intros _ a tail Heq. symmetry in Heq.
    apply app_eq_nil in Heq as [_ ->]. done.
  - destruct (match_here re (c :: input)) as [[cap rest]|] eqn:Hm; [done|].
    intros H [|c' a] tail Heq; cbn in *.
    + by subst tail.
    + injection Heq as -> Heq. by apply (IH _ H a).
Qed.

End span.

(** ** The first span *)

Section first.
Import RegExp.
Implicit Types (p s str a r b : jsstring).

Lemma first_span_unique p s str a r b a' r' b' :
  first_span p s str a r b → first_span p s str a' r' b' →
  a = a' ∧ r = r' ∧ b = b'.
Proof.
  intros (H & Ha & Hr) (H' & Ha' & Hr').
  assert (length a = length a') as Hla.
  { apply Nat.le_antisymm; [by eapply Ha|by eapply Ha']. }
  rewrite H in H'. apply app_inj_1 in H' as [<- H']; [|done].
  apply app_inv_head in H'.
  assert (length r = length r') as Hlr.
  { apply Nat.le_antisymm.
    - eapply Hr. by rewrite H, H'.
    - eapply Hr'. by rewrite H. }
  apply app_inj_1 in H' as [<- H']; [|done].
  by apply app_inv_head in H' as <-.
Qed.

Lemma exec_span_Some p s str m :
  exec (span_regex p s) str = Some m →
  ∃ a r b, first_span p s str a r b ∧ m = Match (length a) (p ++ r ++ s) r.
Proof.
  intros (a & tail & r & b & -> & Hi & Hh & Hmd & Hcap & Hmin)%search_Some.
  pose proof (match_here_Some _ _ _ _ _ Hh) as [-> Hshort].
  exists a, r, b. split; [split; [done|split]|].
  - intros a' r' b' Heq.
    destruct (decide (length a ≤ length a')) as [|Hlt]; [done|].
    specialize (Hmin a' _ Heq ltac:(lia)).
    by eapply match_here_None in Hmin.
  - intros r' b' Heq%app_inv_head. by eapply Hshort.
  - destruct m as [i md cap]; cbn in *. subst. f_equal.
    rewrite !length_app.
    replace (length p + (length r + (length s + length b)) - length b)
      with (length (p ++ r ++ s)) by (rewrite !length_app; lia).
    by rewrite !app_assoc, take_app_length.
Qed.

Lemma exec_span_None p s str :
  exec (span_regex p s) str = None → ¬ occurs p s str.
Proof.
  intros H (a & r & b & ->).
  pose proof (search_None _ _ _ H a _ eq_refl) as Hh.
  by eapply match_here_None in Hh.
Qed.

Lemma exec_no_span p s str :
  ¬ occurs p s str → exec (span_regex p s) str = None.
Proof.
  intros Hno. destruct (exec (span_regex p s) str) as [m|] eqn:He; [|done].
  apply exec_span_Some in He as (a & r & b & (-> & _) & _).
  destruct Hno. by exists a, r, b.
Qed.

Lemma exec_first_span p s str a r b :
  first_span p s str a r b →
  exec (span_regex p s) str = Some (Match (length a) (p ++ r ++ s) r).
Proof.
  intros Hfirst. destruct (exec (span_regex p s) str) as [m|] eqn:He.
  - apply exec_span_Some in He as (a' & r' & b' & Hfirst' & ->).
    by destruct (first_span_unique _ _ _ _ _ _ _ _ _ Hfirst Hfirst')
      as (<- & <- & <-).
  - apply exec_span_None in He. destruct He.
    destruct Hfirst as [-> _]. by exists a, r, b.
Qed.

(** Where the prefix and the suffix occur, there is a first span. *)
Lemma occurs_first_span p s str :
  occurs p s str → ∃ a r b, first_span p s str a r b.
Proof.
  intros Hocc. destruct (exec (span_regex p s) str) as [m|] eqn:He.
  - apply exec_span_Some in He as (a & r & b & Hfirst & _). by exists a, r, b.
  - by apply exec_span_None in He.
Qed.

Lemma replace_first_span {St} p s str a r b
    (f : jsstring → jsstring → St → St * jsstring) (st : St) :
  first_span p s str a r b →
  replace str (span_regex p s) f st
  = ((f (p ++ r ++ s) r st).1, a ++ (f (p ++ r ++ s) r st).2 ++ b).
Proof.
  intros Hfirst. unfold replace. rewrite (exec_first_span _ _ _ _ _ _ Hfirst).
  cbn. destruct Hfirst as [-> _]. destruct (f _ _ _) as [st' by_]. cbn.
  rewrite take_app_length. f_equal. f_equal. f_equal.
  replace (a ++ p ++ r ++ s ++ b) with (a ++ (p ++ r ++ s) ++ b)
    by (by rewrite <- !app_assoc).
  rewrite drop_app_add', drop_app_length; done.
Qed.

Lemma replace_no_span {St} p s str
    (f : jsstring → jsstring → St → St * jsstring) (st : St) :
  ¬ occurs p s str → replace str (span_regex p s) f st = (st, str).
Proof. intros Hno. unfold replace. by rewrite exec_no_span. Qed.

End first.

(** ** The claims about the parser *)

Section parser.
Implicit Types (power_user : power_user_t) (p s str a r b : jsstring).

Lemma falsy_Some p : p ≠ [] → falsy (Some p) = false.
Proof. by destruct p. Qed.

(** With both settings in place, the parser is one replacement with the
    regex of the span. *)
Lemma parse_configured power_user p s str :
  prefix (reasoning power_user) = Some p →
  suffix (reasoning power_user) = Some s →
  p ≠ [] → s ≠ [] →
  parseReasoningFromString power_user str
  = Normal (Some
      (let result := RegExp.replace str (span_regex p s) replacer (false, []) in
       if result.1.1 && trim_spaces power_user
       then {| pr_reasoning := trim result.1.2; pr_content := trim result.2 |}
       else {| pr_reasoning := result.1.2; pr_content := result.2 |})).
Proof.
  intros Hp Hs Hpe Hse. unfold parseReasoningFromString.
  rewrite Hp, Hs, !falsy_Some by done.
  cbn [orb escapeRegex_setting mbind completion_bind JS.bind].
  change (@RegExp_new JSRegExp) with RegExp.compile.
  rewrite compile_escaped.
  cbn [String_replace JSRegExp mbind completion_bind JS.bind].
  unfold replacer_vars.
  destruct (RegExp.replace _ _ _ _) as [[didReplace reasoning'] content]. cbn.
  by destruct (didReplace && trim_spaces power_user).
Qed.

Lemma parse_first_span power_user p s str a r b :
  prefix (reasoning power_user) = Some p →
  suffix (reasoning power_user) = Some s →
  p ≠ [] → s ≠ [] →
  first_span p s str a r b →
  parseReasoningFromString power_user str
  = Normal (Some
      (if trim_spaces power_user
       then {| pr_reasoning := trim r; pr_content := trim (a ++ b) |}
       else {| pr_reasoning := r; pr_content := a ++ b |})).
Proof.
  intros Hp Hs Hpe Hse Hfirst.
  rewrite (parse_configured _ p s) by done.
  by rewrite (replace_first_span _ _ _ _ _ _ _ _ Hfirst).
Qed.

Lemma parse_no_span power_user p s str :
  prefix (reasoning power_user) = Some p →
  suffix (reasoning power_user) = Some s →
  p ≠ [] → s ≠ [] →
  ¬ occurs p s str →
  parseReasoningFromString power_user str
  = Normal (Some {| pr_reasoning := []; pr_content := str |}).
Proof.
  intros Hp Hs Hpe Hse Hno.
  rewrite (parse_configured _ p s) by done.
  by rewrite replace_no_span.
Qed.

(** The parser only answers when both settings are in place. *)
Lemma parse_Some_configured power_user p s str result :
  prefix (reasoning power_user) = Some p →
  suffix (reasoning power_user) = Some s →
  parseReasoningFromString power_user str = Normal (Some result) →
  p ≠ [] ∧ s ≠ [].
Proof.
  intros Hp Hs H. unfold parseReasoningFromString in H. rewrite Hp, Hs in H.
  by destruct p, s.
Qed.

(** C5: when both the prefix and the suffix are configured and the
    prefix followed, anywhere later, by the suffix does not occur in the
    input, [parseReasoningFromString] returns the input as content,
    unchanged and untrimmed whatever trim-spaces is, and the empty string
    as reasoning. *)
Theorem parse_without_span power_user p s str :
  prefix (reasoning power_user) = Some p →
  suffix (reasoning power_user) = Some s →
  p ≠ [] → s ≠ [] →
  ¬ occurs p s str →
  parseReasoningFromString power_user str
  = Normal (Some {| pr_reasoning := []; pr_content := str |}).
Proof.
  intros Hp Hs Hpe Hse Hno.
  rewrite (parse_configured _ p s) by done.
  rewrite replace_no_span by done.
  by destruct (trim_spaces power_user).
Qed.

(** C6: when the prefix followed by the suffix occurs in the input, the
    input has a first non-greedy span, [parseReasoningFromString] returns
    what is between the prefix and the suffix of that span as reasoning
    and the input without the span as content, both trimmed when
    trim-spaces is enabled; on ["PRE abc SUF rest"] with prefix ["PRE"]
    and suffix ["SUF"] it returns reasoning [" abc "] and content
    [" rest"] with trim-spaces off, reasoning ["abc"] and content
    ["rest"] with trim-spaces on. *)
Theorem parse_with_span :
  (∀ power_user p s str,
     prefix (reasoning power_user) = Some p →
     suffix (reasoning power_user) = Some s →
     p ≠ [] → s ≠ [] →
     occurs p s str →
     ∃ a r b,
       first_span p s str a r b
       ∧ parseReasoningFromString power_user str
         = Normal (Some
             (if trim_spaces power_user
              then {| pr_reasoning := trim r; pr_content := trim (a ++ b) |}
              else {| pr_reasoning := r; pr_content := a ++ b |})))
  ∧ parseReasoningFromString (example_settings "PRE" "SUF" false)
      (lit "PRE abc SUF rest")
    = Normal (Some {| pr_reasoning := lit " abc ";
                      pr_content := lit " rest" |})
  ∧ parseReasoningFromString (example_settings "PRE" "SUF" true)
      (lit "PRE abc SUF rest")
    = Normal (Some {| pr_reasoning := lit "abc"; pr_content := lit "rest" |}).
Proof.
  split; [|split; vm_compute; reflexivity].
  intros power_user p s str Hp Hs Hpe Hse Hocc.
  destruct (occurs_first_span p s str Hocc) as (a & r & b & Hfirst).
  exists a, r, b. split; [done|]. by apply (parse_first_span _ p s).
Qed.

(** C7: [parseReasoningFromString] returns [null] when the prefix or the
    suffix is empty or unset; whatever the regular expression engine
    does, the call never throws, and an error thrown by the constructor
    of the regular expression or by the replacement gives [null]; with
    both settings in place the parser is the constructor of the engine on
    the escaped prefix, the capture and the escaped suffix, under the [s]
    flag, followed by the replacement, and nothing else of the engine;
    that pattern always compiles, to the literal prefix, the lazy capture
    and the literal suffix, so that with the built-in regular expressions
    the parser answers with the replacement by that regex, whatever
    metacharacters the settings hold. *)
Theorem parse_never_throws `{engine : RegExpEngine} power_user str :
  (falsy (prefix (reasoning power_user)) = true
   ∨ falsy (suffix (reasoning power_user)) = true →
   parseReasoningFromString power_user str = Normal None)
  ∧ (∀ e, parseReasoningFromString power_user str ≠ Throw e)
  ∧ (∀ p s,
       prefix (reasoning power_user) = Some p →
       suffix (reasoning power_user) = Some s →
       (∀ e, RegExp_new (escapeRegex p ++ lit "(.*?)" ++ escapeRegex s) (lit "s")
             = Throw e →
             parseReasoningFromString power_user str = Normal None)
       ∧ (∀ re e,
            RegExp_new (escapeRegex p ++ lit "(.*?)" ++ escapeRegex s) (lit "s")
            = Normal re →
            String_replace str re replacer (false, []) = Throw e →
            parseReasoningFromString power_user str = Normal None))
  ∧ (∀ p s,
       @RegExp_new JSRegExp (escapeRegex p ++ lit "(.*?)" ++ escapeRegex s)
         (lit "s")
       = Normal (span_regex p s))
  ∧ (∀ p s,
       prefix (reasoning power_user) = Some p →
       suffix (reasoning power_user) = Some s →
       p ≠ [] → s ≠ [] →
       parseReasoningFromString power_user str
       = match RegExp_new (escapeRegex p ++ lit "(.*?)" ++ escapeRegex s)
                 (lit "s") with
         | Throw _ => Normal None
         | Normal re =>
             match String_replace str re replacer (false, []) with
             | Throw _ => Normal None
             | Normal (didReplace, reasoning_, content) =>
                 Normal (Some
                   (if didReplace && trim_spaces power_user
                    then {| pr_reasoning := trim reasoning_;
                            pr_content := trim content |}
                    else {| pr_reasoning := reasoning_;
                            pr_content := content |}))
             end
         end)
  ∧ (∀ p s,
       prefix (reasoning power_user) = Some p →
       suffix (reasoning power_user) = Some s →
       p ≠ [] → s ≠ [] →
       @parseReasoningFromString JSRegExp power_user str
       = Normal (Some
           (let result :=
              RegExp.replace str (span_regex p s) replacer (false, []) in
            if result.1.1 && trim_spaces power_user
            then {| pr_reasoning := trim result.1.2;
                    pr_content := trim result.2 |}
            else {| pr_reasoning := result.1.2; pr_content := result.2 |}))).
Proof.
  split; [|split; [|split; [|split; [|split]]]].
  - unfold parseReasoningFromString. by intros [-> | ->]; rewrite ?orb_true_r.
  - intros e. unfold parseReasoningFromString, try_catch.
    destruct (_ || _); [done|]. by destruct (_ ≫= _).
  - intros p s Hp Hs. unfold parseReasoningFromString. rewrite Hp, Hs. cbn.
    split.
    + intros e ->. by destruct (_ || _).
    + intros re e -> Hr. cbn. rewrite Hr. by destruct (_ || _).
  - apply compile_escaped.
  - intros p s Hp Hs Hpe Hse. unfold parseReasoningFromString.
    rewrite Hp, Hs, !falsy_Some by done.
    cbn [orb escapeRegex_setting mbind completion_bind JS.bind].
    destruct (RegExp_new _ _) as [re|e]; [|done].
    cbn [mbind completion_bind JS.bind try_catch].
    destruct (String_replace _ _ _ _) as [[[didReplace r] content]|e];
      [|done].
    cbn. by destruct (didReplace && trim_spaces power_user).
  - intros p s Hp Hs Hpe Hse. by apply parse_configured.
Qed.

(** C8: when a first call of [parseReasoningFromString] returns a content
    in which the prefix followed by the suffix does not occur, a second
    call on that content returns it unchanged, with an empty reasoning. *)
Theorem parse_idempotent power_user p s str result :
  prefix (reasoning power_user) = Some p →
  suffix (reasoning power_user) = Some s →
  parseReasoningFromString power_user str = Normal (Some result) →
  ¬ occurs p s (pr_content result) →
  parseReasoningFromString power_user (pr_content result)
  = Normal (Some {| pr_reasoning := []; pr_content := pr_content result |}).
Proof.
  intros Hp Hs Hfirst Hno.
  destruct (parse_Some_configured _ _ _ _ _ Hp Hs Hfirst) as [Hpe Hse].
  by apply (parse_no_span _ p s).
Qed.

End parser.

Section parser_examples.

Lemma parse_without_span_witness :
  parseReasoningFromString (example_settings "PRE" "SUF" true)
    (lit "  PRE but no end  ")
  = Normal (Some {| pr_reasoning := [];
                    pr_content := lit "  PRE but no end  " |}).
Proof.
  apply (parse_without_span _ (lit "PRE") (lit "SUF"));
    [reflexivity|reflexivity|discriminate|discriminate|].
  apply exec_span_None. vm_compute. reflexivity.
Defined.

Lemma parse_with_span_witness :
  ∃ a r b,
    first_span (lit "<(") (lit ")>") (lit "x <(a)> <(b)> y") a r b
    ∧ parseReasoningFromString (example_settings "<(" ")>" false)
        (lit "x <(a)> <(b)> y")
      = Normal (Some {| pr_reasoning := r; pr_content := a ++ b |}).
Proof.
  apply (proj1 parse_with_span (example_settings "<(" ")>" false)
           (lit "<(") (lit ")>") (lit "x <(a)> <(b)> y"));
    [reflexivity|reflexivity|discriminate|discriminate|].
  exists (lit "x "), (lit "a"), (lit " <(b)> y"). reflexivity.
Defined.

Lemma parse_never_throws_witness :
  @parseReasoningFromString JSRegExp (example_settings "" "SUF" false)
    (lit "PRE a SUF")
  = Normal None
  ∧ @parseReasoningFromString failing_engine
      (example_settings "PRE" "SUF" false) (lit "PRE a SUF")
    = Normal None
  ∧ @parseReasoningFromString recording_engine
      (example_settings "(a.b)" "[c]" true) (lit "PRE a SUF")
    = Normal (Some {| pr_reasoning := [];
                      pr_content := lit "\(a\.b\)(.*?)\[c\]" |})
  ∧ @parseReasoningFromString JSRegExp
      (example_settings "(" ")" false) (lit "a (b.*) c")
    = Normal (Some {| pr_reasoning := lit "b.*"; pr_content := lit "a  c" |}).
Proof.
  split; [|split; [|split]].
  - apply (proj1 (@parse_never_throws JSRegExp
                    (example_settings "" "SUF" false) (lit "PRE a SUF"))).
    left. reflexivity.
  - destruct (@parse_never_throws failing_engine
                (example_settings "PRE" "SUF" false) (lit "PRE a SUF"))
      as (_ & _ & H & _).
    destruct (H (lit "PRE") (lit "SUF") eq_refl eq_refl) as [H1 _].
    apply (H1 SyntaxError). reflexivity.
  - destruct (@parse_never_throws recording_engine
                (example_settings "(a.b)" "[c]" true) (lit "PRE a SUF"))
      as (_ & _ & _ & _ & H & _).
    rewrite (H (lit "(a.b)") (lit "[c]"));
      [vm_compute; reflexivity|reflexivity|reflexivity
      |discriminate|discriminate].
  - destruct (@parse_never_throws JSRegExp
                (example_settings "(" ")" false) (lit "a (b.*) c"))
      as (_ & _ & _ & _ & _ & H).
    rewrite (H (lit "(") (lit ")"));
      [vm_compute; reflexivity|reflexivity|reflexivity
      |discriminate|discriminate].
Defined.

Lemma parse_idempotent_witness :
  parseReasoningFromString (example_settings "PRE" "SUF" false) (lit " rest")
  = Normal (Some {| pr_reasoning := []; pr_content := lit " rest" |}).
Proof.
  apply (parse_idempotent (example_settings "PRE" "SUF" false)
           (lit "PRE") (lit "SUF") (lit "PRE abc SUF rest")
           {| pr_reasoning := lit " abc "; pr_content := lit " rest" |});
    [reflexivity|reflexivity|vm_compute; reflexivity|].
  apply exec_span_None. vm_compute. reflexivity.
Defined.

(** The capture runs across line breaks. *)
Example parse_across_lines :
  parseReasoningFromString (example_settings "<think>" "</think>" true)
    (lit "<think>" ++ 10%N :: lit "a" ++ 10%N :: lit "b</think>" ++ 10%N
       :: lit "Hello")
  = Normal (Some {| pr_reasoning := lit "a" ++ 10%N :: lit "b";
                    pr_content := lit "Hello" |}).
Proof. vm_compute. reflexivity. Qed.

(** Only the first span is taken, and the shortest from there. *)
Example parse_first_of_two :
  parseReasoningFromString (example_settings "[" "]" false)
    (lit "a[b]c[d]]e")
  = Normal (Some {| pr_reasoning := lit "b"; pr_content := lit "ac[d]]e" |}).
Proof. vm_compute. reflexivity. Qed.

(** Without the escaping, a prefix such as ["("] would not give a
    pattern. *)
Example unescaped_parenthesis :
  RegExp.compile (lit "(" ++ lit "(.*?)" ++ lit ")") (lit "s")
  = Throw SyntaxError
  ∧ RegExp.compile (escapeRegex (lit "(") ++ lit "(.*?)" ++ escapeRegex (lit ")"))
      (lit "s")
    = Normal (span_regex (lit "(") (lit ")")).
Proof. split; vm_compute; reflexivity. Qed.

End parser_examples.


(** * More of the module *)

(** ** The tracker: what a cycle writes *)

Section tracker_writes.
Import ReasoningHandler.
Context `{hooks : Collaborators}.

Implicit Types (h : ReasoningHandler.t) (w : World) (σ : ReasoningHandler.t * World).

Lemma process_completed i mesChanged currentTime h w m :
  returns_early h = false → chat w !! i = Some m →
  process i mesChanged currentTime (h, w)
  = ((ended h w m mesChanged currentTime,
      {| chat := <[i := cycle_message h w m mesChanged currentTime]> (chat w);
         power_user := power_user w;
         main_api := main_api w;
         oai_settings := oai_settings w;
         emitted := emitted w
           ++ (if ends h w m mesChanged
               then [reasoning_done (finalReasoning h w)] else []) |}),
     Normal ()).
Proof.
  intros E Em. unfold process, mbind, method_bind, this; cbn.
  unfold returns_early in E. rewrite E.
  unfold updateReasoning, mbind, method_bind, this, assign; cbn.
  fold (regexed h).
  rewrite (chat_at_found _ _ _ _ Em).
  assert (∃ w1 m1 e0,
    (if extra m is Some _ then mret ()
     else set_extra_at i {| extra_reasoning := None;
                            extra_reasoning_duration := None |})
      (regexed h, w) = ((regexed h, w1), Normal ())
    ∧ chat w1 !! i = Some m1 ∧ extra m1 = Some e0 ∧ mes m1 = mes m
    ∧ extra_reasoning e0 = stored m
    ∧ power_user w1 = power_user w ∧ emitted w1 = emitted w
    ∧ main_api w1 = main_api w ∧ oai_settings w1 = oai_settings w
    ∧ ∀ x, <[i:=x]> (chat w1) = <[i:=x]> (chat w))
    as (w1 & m1 & e0 & -> & Em1 & Ee0 & Hmes & Est & Hp & He & Ha & Ho & Hc).
  { unfold stored. destruct (extra m) as [e|] eqn:Ee.
    - by exists w, m, e.
    - rewrite (set_extra_at_found _ _ _ _ _ Em).
      eexists _, _, _. split; [done|].
      split; [by apply with_extra_lookup|]. repeat split.
      intros x. cbn. apply list_insert_insert_eq. }
  rewrite (extra_at_found _ _ _ _ _ Em1 Ee0).
  rewrite (set_extra_at_found _ _ _ _ _ Em1). cbn.
  rewrite Est, Hp. fold (finalReasoning h w). fold (reasoningChanged h w m).
  set (e1 := {| extra_reasoning := Some (finalReasoning h w);
                extra_reasoning_duration := extra_reasoning_duration e0 |}).
  assert (Em2 : chat (with_extra i m1 e1 w1) !! i
                = Some {| mes := mes m1; extra := Some e1 |})
    by by apply with_extra_lookup.
  assert ((if (isHidden h || reasoningChanged h w m)
              && bool_decide (startTime h = None)
           then λ σ, (set_startTime (Some (initialTime h)) σ.1, σ.2, Normal ())
           else mret ()) (regexed h, with_extra i m1 e1 w1)
          = ((started h w m, with_extra i m1 e1 w1), Normal ())) as ->.
  { unfold started.
    by destruct ((isHidden h || reasoningChanged h w m)
                 && bool_decide (startTime h = None)). }
  cbn.
  replace (isHidden (started h w m)) with (isHidden h)
    by (unfold started; by case_match).
  replace (endTime (started h w m)) with (endTime h)
    by (unfold started; by case_match).
  fold (ends h w m mesChanged).
  unfold cycle_message, ended. destruct (ends h w m mesChanged); cbn.
  - erewrite updateTime_found; [|exact Em2|done].
    unfold with_extra, set_chat, add_emitted; cbn.
    by rewrite list_insert_insert_eq, Hc, Hmes, Hp, He, Ha, Ho.
  - erewrite updateTime_found; [|exact Em2|done].
    unfold with_extra, set_chat; cbn.
    by rewrite list_insert_insert_eq, Hc, Hmes, Hp, He, Ha, Ho, app_nil_r.
Qed.

Lemma not_early h :
  reasoning h ≠ [] ∨ isHidden h = true → returns_early h = false.
Proof.
  unfold returns_early. intros [Hr | ->]; [|by rewrite andb_false_r].
  by destruct (reasoning h).
Qed.

Lemma ended_reasoning h w m mesChanged currentTime :
  reasoning (ended h w m mesChanged currentTime)
  = getRegexedString (reasoning h)
  ∧ state (ended h w m mesChanged currentTime) = state h
  ∧ type (ended h w m mesChanged currentTime) = type h.
Proof. unfold ended, started. by repeat case_match. Qed.

Lemma insert_same_mes (chat : list Message) i m x :
  chat !! i = Some m →
  mes <$> <[i := {| mes := mes m; extra := x |}]> chat = mes <$> chat.
Proof.
  intros Hm. rewrite list_fmap_insert. cbn.
  apply list_insert_id. by rewrite list_lookup_fmap, Hm.
Qed.

(** X1: a cycle that does not return at once, for a message of the chat,
    leaves on that message what the handler then holds: as reasoning the
    reasoning of the handler, trimmed under trim-spaces, and as duration
    the value of [getDuration]; the text of the message, the other
    messages and the length of the chat stay as they were. *)
Theorem process_persists i mesChanged currentTime h w m :
  chat w !! i = Some m →
  reasoning h ≠ [] ∨ isHidden h = true →
  let σ' := (process i mesChanged currentTime (h, w)).1 in
  chat σ'.2 !! i
  = Some {| mes := mes m;
            extra := Some
              {| extra_reasoning :=
                   Some (finalReasoning_of (power_user w) σ'.1);
                 extra_reasoning_duration := Some (getDuration σ'.1) |} |}
  ∧ length (chat σ'.2) = length (chat w)
  ∧ ∀ j, j ≠ i → chat σ'.2 !! j = chat w !! j.
Proof.
  intros Em Hr%not_early σ'. subst σ'.
  rewrite (process_completed _ _ _ _ _ _ Hr Em). cbn.
  split; [|split].
  - rewrite list_lookup_insert_eq by (by eapply lookup_lt_Some).
    unfold cycle_message, finalReasoning, finalReasoning_of.
    destruct (ended_reasoning h w m mesChanged currentTime) as [-> _].
    done.
  - apply length_insert.
  - intros j Hj. by apply list_lookup_insert_ne.
Qed.


(** X3: at the end of the stream, with a start time and no end time, for
    a message that is not in the chat or has no [extra], [finish] still
    sets the end time and emits the notification, and then throws a
    [TypeError]: the chat is as it was, no duration is stored. *)
Theorem finish_cannot_persist i now h w :
  startTime h ≠ None → endTime h = None →
  chat w !! i = None ∨ (∃ m, chat w !! i = Some m ∧ extra m = None) →
  finish i now (h, w)
  = ((set_endTime (Some now) h,
      add_emitted (reasoning_done (finalReasoning_of (power_user w) h)) w),
     Throw TypeError).
Proof.
  intros Hs He Hm. unfold finish, mbind, method_bind, this; cbn.
  rewrite (bool_decide_eq_false_2 _ Hs), (bool_decide_eq_true_2 _ He). cbn.
  unfold emit, update_world; cbn.
  unfold updateTime, mbind, method_bind, this; cbn.
  unfold extra_at, mbind, method_bind.
  destruct Hm as [Hm | (m & Hm & Hx)].
  - by rewrite chat_at_missing.
  - rewrite (chat_at_found _ _ _ m) by done. by rewrite Hx.
Qed.

(** X4: at the end of the stream, with a start time and no end time, for
    a message that has an [extra], [finish] succeeds and stores the
    duration, the current time minus the start time; the reasoning stored
    on the message and its text are not rewritten. *)
Theorem finish_persists i now h w m e s :
  startTime h = Some s → endTime h = None →
  chat w !! i = Some m → extra m = Some e →
  let result := finish i now (h, w) in
  result.2 = Normal ()
  ∧ result.1.1 = set_endTime (Some now) h
  ∧ chat result.1.2
    = <[i := {| mes := mes m;
                extra := Some
                  {| extra_reasoning := extra_reasoning e;
                     extra_reasoning_duration := Some (Some (now - s)%Z) |} |}]>
        (chat w)
  ∧ emitted result.1.2
    = emitted w ++ [reasoning_done (finalReasoning_of (power_user w) h)].
Proof.
  intros Hs He Hm Hx result. subst result.
  unfold finish, mbind, method_bind, this; cbn.
  rewrite Hs, (bool_decide_eq_true_2 _ He). cbn.
  unfold emit, update_world; cbn.
  erewrite updateTime_found; [|exact Hm|exact Hx]. cbn.
  unfold getDuration; cbn. by rewrite Hs.
Qed.


End tracker_writes.

(** ** The tracker: what holds in every session *)

Section tracker_sessions.
Import ReasoningHandler.
Context `{hooks : Collaborators}.

Implicit Types (h : ReasoningHandler.t) (w : World) (σ : ReasoningHandler.t * World).

Lemma session_snoc ty timeStarted w0 (cs : list call) c :
  session ty timeStarted w0 (cs ++ [c])
  = (run_call c (session ty timeStarted w0 cs)).1.
Proof. unfold session. by rewrite run_calls_app. Qed.

Lemma finish_handler i now h w :
  (finish i now (h, w)).1.1
  = if negb (bool_decide (startTime h = None)) && bool_decide (endTime h = None)
    then set_endTime (Some now) h else h.
Proof.
  destruct (decide (startTime h ≠ None ∧ endTime h = None)) as [[Hs He]|H].
  - destruct (finish_forced i now h w Hs He) as [-> _].
    by rewrite (bool_decide_eq_false_2 _ Hs), (bool_decide_eq_true_2 _ He).
  - apply not_pending in H. rewrite finish_idle by done.
    destruct H as [H|H].
    + by rewrite (bool_decide_eq_true_2 _ H).
    + by rewrite (bool_decide_eq_false_2 _ H), andb_false_r.
Qed.

Lemma run_call_fixed (c : call) σ :
  state (run_call c σ).1.1 = state σ.1
  ∧ type (run_call c σ).1.1 = type σ.1
  ∧ initialTime (run_call c σ).1.1 = initialTime σ.1
  ∧ isHidden (run_call c σ).1.1 = isHidden σ.1.
Proof.
  destruct σ as [h w], c as [r|i mc ct|i now|c' p']; cbn.
  - done.
  - destruct (returns_early h) eqn:E; [by rewrite process_early|].
    destruct (chat w !! i) as [m|] eqn:Em; [|by rewrite process_missing].
    rewrite (process_completed _ _ _ _ _ _ E Em). cbn.
    destruct (ended_reasoning h w m mc ct) as (_ & -> & ->).
    by destruct (ended_frame h w m mc ct) as (_ & -> & ->).
  - rewrite finish_handler. by case_match.
  - done.
Qed.

Lemma run_call_times (c : call) σ :
  (startTime (run_call c σ).1.1 = startTime σ.1
   ∨ startTime (run_call c σ).1.1 = Some (initialTime σ.1))
  ∧ (endTime (run_call c σ).1.1 = endTime σ.1
     ∨ ∃ i e, (c = Process i true e ∨ c = Finish i e)
         ∧ endTime (run_call c σ).1.1 = Some e).
Proof.
  destruct σ as [h w], c as [r|i mc ct|i now|c' p']; cbn.
  - split; by left.
  - destruct (returns_early h) eqn:E;
      [rewrite process_early by done; split; by left|].
    destruct (chat w !! i) as [m|] eqn:Em;
      [|rewrite process_missing by done; split; by left].
    rewrite (process_completed _ _ _ _ _ _ E Em). cbn.
    destruct (ended_frame h w m mc ct) as [-> _].
    rewrite started_startTime, ended_endTime. split.
    + case_match; [by right|by left].
    + destruct (ends h w m mc) eqn:Hends; [|by left].
      apply ends_true in Hends as (_ & _ & ->). right. exists i, ct. auto.
  - rewrite finish_handler. split; [left; by case_match|].
    case_match; [|by left]. right. exists i, now. auto.
  - split; by left.
Qed.

Lemma updateTime_texts i h w :
  mes <$> chat (updateTime i (h, w)).1.2 = mes <$> chat w.
Proof.
  destruct (chat w !! i) as [m|] eqn:Em.
  - destruct (extra m) as [e|] eqn:Ee.
    + rewrite (updateTime_found _ _ _ _ _ Em Ee). cbn.
      by apply insert_same_mes.
    + unfold updateTime, mbind, method_bind, this; cbn.
      unfold extra_at, mbind, method_bind.
      rewrite (chat_at_found _ _ _ m) by done. by rewrite Ee.
  - unfold updateTime, mbind, method_bind, this; cbn.
    unfold extra_at, mbind, method_bind. by rewrite chat_at_missing.
Qed.

Lemma run_call_texts (c : call) σ :
  (∀ chat' power_user', c ≠ Elsewhere chat' power_user') →
  mes <$> chat (run_call c σ).1.2 = mes <$> chat σ.2.
Proof.
  intros Hc. destruct σ as [h w], c as [r|i mc ct|i now|c' p']; cbn.
  - done.
  - destruct (returns_early h) eqn:E; [by rewrite process_early|].
    destruct (chat w !! i) as [m|] eqn:Em; [|by rewrite process_missing].
    rewrite (process_completed _ _ _ _ _ _ E Em). cbn.
    by apply insert_same_mes.
  - unfold finish, mbind, method_bind, this; cbn.
    case_match; [|done]. cbn. unfold emit, update_world; cbn.
    by rewrite updateTime_texts.
  - by destruct (Hc c' p').
Qed.

(** X6: in every session the handler keeps the state, the generation
    type, the initial time and the hidden-model flag that the constructor
    gave it; in particular [state] is [ReasoningState.None] throughout:
    no call assigns it. *)
Theorem session_fixed_fields ty timeStarted w0 (cs : list call) :
  let σ := session ty timeStarted w0 cs in
  state σ.1 = ReasoningState.None
  ∧ type σ.1 = ty
  ∧ initialTime σ.1 = timeStarted
  ∧ isHidden σ.1 = isHiddenReasoningModel (main_api w0) (oai_settings w0).
Proof.
  induction cs as [|c cs IH] using rev_ind; [done|].
  cbv zeta in *. rewrite session_snoc.
  destruct (run_call_fixed c (session ty timeStarted w0 cs))
    as (-> & -> & -> & ->).
  exact IH.
Qed.

(** X7: in every session the start time, once set, is the time the
    generation started; an end time is the timestamp of a cycle in which
    the message body changed or the time of a [finish] of the session;
    the duration is that end time minus the time the generation
    started. *)
Theorem session_times ty timeStarted w0 (cs : list call) :
  let σ := session ty timeStarted w0 cs in
  (startTime σ.1 = None ∨ startTime σ.1 = Some timeStarted)
  ∧ ∀ e, endTime σ.1 = Some e →
      getDuration σ.1 = Some (e - timeStarted)%Z
      ∧ ∃ i, Process i true e ∈ cs ∨ Finish i e ∈ cs.
Proof.
  cbv zeta.
  assert ((startTime (session ty timeStarted w0 cs).1 = None
           ∨ startTime (session ty timeStarted w0 cs).1 = Some timeStarted)
          ∧ ∀ e, endTime (session ty timeStarted w0 cs).1 = Some e →
              ∃ i, Process i true e ∈ cs ∨ Finish i e ∈ cs) as [Hs He].
  { induction cs as [|c cs [IHs IHe]] using rev_ind.
    - split; [by left|done].
    - rewrite session_snoc.
      destruct (run_call_times c (session ty timeStarted w0 cs)) as [Hs He].
      rewrite session_initialTime in Hs. split.
      + destruct Hs as [-> | ->]; [done|by right].
      + intros e Hend. destruct He as [He | (i & e' & Hc & He)].
        * rewrite He in Hend. destruct (IHe e Hend) as [i Hi].
          exists i. rewrite !elem_of_app. tauto.
        * rewrite He in Hend. injection Hend as ->.
          exists i. rewrite !elem_of_app, !list_elem_of_singleton.
          destruct Hc as [-> | ->]; tauto. }
  split; [done|]. intros e Hend. split; [|by apply He].
  assert (startTime (session ty timeStarted w0 cs).1 ≠ None) as Hstarted.
  { apply session_started_before_ended. by rewrite Hend. }
  unfold getDuration. rewrite Hend.
  by destruct Hs as [Hs | ->].
Qed.

(** X8: a session on a model that is not hidden-reasoning, in which no
    reasoning is ever stored on the handler, leaves no trace: after any
    number of cycles and ends of stream the handler and the world are as
    they were, with no time set, no event emitted and no [extra] created
    on any message. *)
Theorem session_without_reasoning ty timeStarted w0 (cs : list call) :
  isHiddenReasoningModel (main_api w0) (oai_settings w0) = false →
  (∀ c, c ∈ cs →
     ∃ i t, (∃ mesChanged, c = Process i mesChanged t) ∨ c = Finish i t) →
  session ty timeStarted w0 cs = (constructor ty timeStarted w0, w0).
Proof.
  intros Hh Hcs. induction cs as [|c cs IH] using rev_ind; [done|].
  rewrite session_snoc, IH.
  - destruct (Hcs c) as (i & t & [[mc ->] | ->]).
    { rewrite elem_of_app, list_elem_of_singleton. by right. }
    + cbn [run_call]. rewrite process_early; [done|].
      unfold returns_early, constructor; cbn. by rewrite Hh.
    + cbn [run_call]. rewrite finish_idle; [done|by left].
  - intros c' Hc'. apply Hcs. rewrite elem_of_app. by left.
Qed.

(** X9: on a hidden-reasoning model the first cycle of a new handler, for
    a message of the chat, starts the reasoning at the time the
    generation started although there is no reasoning text; it also ends
    it, at its current timestamp and with the notification, exactly when
    the message body changed. *)
Theorem hidden_model_first_cycle ty timeStarted w0 i mesChanged currentTime m :
  isHiddenReasoningModel (main_api w0) (oai_settings w0) = true →
  chat w0 !! i = Some m →
  let σ' := (process i mesChanged currentTime
               (constructor ty timeStarted w0, w0)).1 in
  startTime σ'.1 = Some timeStarted
  ∧ endTime σ'.1 = (if mesChanged then Some currentTime else None)
  ∧ emitted σ'.2
    = emitted w0
      ++ (if mesChanged
          then [reasoning_done
                  (finalReasoning_of (power_user w0)
                     (set_reasoning (getRegexedString [])
                        (constructor ty timeStarted w0)))]
          else []).
Proof.
  intros Hh Em σ'. subst σ'.
  rewrite (process_completed _ _ _ _ _ m);
    [|apply not_early; by right|done].
  cbn. destruct (ended_frame (constructor ty timeStarted w0) w0 m mesChanged
                   currentTime) as [-> _].
  rewrite started_startTime, ended_endTime.
  assert (ends (constructor ty timeStarted w0) w0 m mesChanged = mesChanged)
    as ->.
  { unfold ends. rewrite started_startTime. cbn. rewrite Hh. cbn.
    by destruct mesChanged. }
  cbn. rewrite Hh. cbn. by destruct mesChanged.
Qed.

(** X10: the tracker writes to [extra] alone: when nothing else changes
    the chat during a session, the texts of the messages, and with them
    the number of messages, are at the end what they were at the start. *)
Theorem session_keeps_texts ty timeStarted w0 (cs : list call) :
  (∀ c chat' power_user', c ∈ cs → c ≠ Elsewhere chat' power_user') →
  mes <$> chat (session ty timeStarted w0 cs).2 = mes <$> chat w0.
Proof.
  intros Hcs. induction cs as [|c cs IH] using rev_ind; [done|].
  rewrite session_snoc, run_call_texts.
  - apply IH. intros c' ?? Hc'. apply Hcs. rewrite elem_of_app. by left.
  - intros ??. apply Hcs. rewrite elem_of_app, list_elem_of_singleton. by right.
Qed.

End tracker_sessions.

(** ** The counter over several calls *)

Section counter_more.
Import PromptReasoning.
Context `{hooks : Collaborators}.

Implicit Types (this : PromptReasoning.t) (power_user : power_user_t).

Lemma addToMessage_cases power_user content r isPrefix this :
  addToMessage power_user content r isPrefix this = (this, content)
  ∨ (r ≠ [] ∧ r ≠ REASONING_PLACEHOLDER
     ∧ (isPrefix = true ∨ isLimitReached power_user this = false)
     ∧ addToMessage power_user content r isPrefix this
       = ({| counter := counter this + 1 |},
          if isPrefix && negb (truthy content)
          then substituteParams (or_empty (prefix (reasoning power_user))) ++ r
          else with_reasoning power_user content r)).
Proof.
  unfold addToMessage, isLimitReached, with_reasoning.
  destruct isPrefix; cbn.
  - destruct r as [|c r]; cbn; [by left|].
    unfold JS.eqb. case_bool_decide as Hp; cbn; [by left|].
    right. split; [done|]. split; [done|]. split; [by left|].
    by destruct content.
  - destruct (add_to_prompts _); cbn; [|by left].
    destruct (_ <=? _)%Z; cbn; [by left|].
    destruct r as [|c r]; cbn; [by left|].
    unfold JS.eqb. case_bool_decide as Hp; cbn; [by left|].
    right. split; [done|]. split; [done|]. split; [by right|done].
Qed.

(** X11: whatever the settings, the counter and the arguments, the string
    that [addToMessage] returns ends with the content it was given; and
    either the counter is as before and the string is the content alone,
    or the counter went up by one and the string contains the reasoning,
    which then is neither empty nor the placeholder. *)
Theorem addToMessage_keeps_content power_user content r isPrefix this :
  let result := addToMessage power_user content r isPrefix this in
  (∃ head, result.2 = head ++ content)
  ∧ ((result.1 = this ∧ result.2 = content)
     ∨ (counter result.1 = (counter this + 1)%Z
        ∧ r ≠ [] ∧ r ≠ REASONING_PLACEHOLDER ∧ contains result.2 r)).
Proof.
  cbv zeta.
  destruct (addToMessage_cases power_user content r isPrefix this)
    as [-> | (Hr1 & Hr2 & _ & ->)]; cbn.
  - split; [by exists []|by left].
  - split.
    + destruct (isPrefix && negb (truthy content)) eqn:E.
      * apply andb_true_iff in E as [_ E]. destruct content; [|done].
        eexists. by rewrite app_nil_r.
      * unfold with_reasoning.
        exists (substituteParams (or_empty (prefix (reasoning power_user)))
                  ++ r
                  ++ substituteParams (or_empty (suffix (reasoning power_user)))
                  ++ substituteParams
                       (or_empty (separator (reasoning power_user)))).
        by rewrite <- !app_assoc.
    + right. split; [done|]. split; [done|]. split; [done|].
      case_match; unfold with_reasoning, contains.
      * eexists _, []. by rewrite app_nil_r.
      * by eexists _, _.
Qed.

(** X12: a call that is not for the prefix returns its content with the
    counter unchanged exactly when [isLimitReached] holds or the
    reasoning is empty or the placeholder. *)
Theorem addToMessage_unchanged_iff power_user content r this :
  addToMessage power_user content r false this = (this, content)
  ↔ isLimitReached power_user this = true
    ∨ r = [] ∨ r = REASONING_PLACEHOLDER.
Proof.
  split.
  - intros Heq.
    destruct (addToMessage_cases power_user content r false this)
      as [_ | (Hr1 & Hr2 & Hl & Hadd)].
    + destruct (isLimitReached power_user this) eqn:Hl; [by left|].
      destruct (decide (r = [])) as [|Hr1]; [auto|].
      destruct (decide (r = REASONING_PLACEHOLDER)) as [|Hr2]; [auto|].
      exfalso. unfold addToMessage, isLimitReached in *.
      destruct (add_to_prompts _); [|done]. cbn in *. rewrite Hl in Heq.
      cbn in Heq. rewrite real_reasoning in Heq by done.
      injection Heq as Hc _. destruct this as [n]. cbn in Hc.
      injection Hc. lia.
    + rewrite Heq in Hadd. injection Hadd as Hc _.
      destruct this as [n]. cbn in Hc. injection Hc. lia.
  - intros [Hl | Hr].
    + by apply addToMessage_limited.
    + by apply addToMessage_skipped.
Qed.

Lemma addToMessages_cons power_user content r isPrefix calls this :
  addToMessages power_user ((content, r, isPrefix) :: calls) this
  = ((addToMessages power_user calls
        (addToMessage power_user content r isPrefix this).1).1,
     (addToMessage power_user content r isPrefix this).2
     :: (addToMessages power_user calls
           (addToMessage power_user content r isPrefix this).1).2).
Proof.
  cbn. destruct (addToMessage _ _ _ _ _) as [this' out]. cbn.
  by destruct (addToMessages _ _ _).
Qed.

Lemma limit_not_reached power_user this :
  isLimitReached power_user this = false →
  add_to_prompts (reasoning power_user) = true
  ∧ (counter this < max_additions (reasoning power_user))%Z.
Proof.
  unfold isLimitReached. destruct (add_to_prompts _); cbn; [|done].
  intros H%Z.leb_gt. split; [done|lia].
Qed.

Lemma addToMessages_limited power_user (calls : list addition) this :
  isLimitReached power_user this = true →
  Forall plain_addition calls →
  addToMessages power_user calls this = (this, map (λ a, a.1.1) calls).
Proof.
  intros Hl Hcalls.
  induction Hcalls as [|[[content r] isPrefix] calls (Hp & _ & _) _ IH];
    [done|].
  cbn in Hp. subst isPrefix. rewrite addToMessages_cons.
  rewrite addToMessage_limited by done. cbn [fst snd map].
  by rewrite IH.
Qed.

Lemma with_reasoning_changes power_user content r :
  r ≠ [] → with_reasoning power_user content r ≠ content.
Proof.
  intros Hr Heq. apply (f_equal length) in Heq.
  unfold with_reasoning in Heq. rewrite !length_app in Heq.
  destruct r; [done|]. cbn in Heq. lia.
Qed.

(** X13: over any calls in a row on one counter, every call returns a
    string, and the counter goes up by exactly the number of calls whose
    string is not the content they were given, so that it never goes
    down and goes up by at most one per call; when none of the calls is
    for the prefix, either the counter is where it started or
    [isLimitReached] was false on the value it had before its last
    increment. *)
Theorem addToMessages_counts power_user (calls : list addition) this :
  let result := addToMessages power_user calls this in
  length result.2 = length calls
  ∧ counter result.1
    = (counter this
       + Z.of_nat (length (filter (λ x, x.2 ≠ x.1.1.1)
                             (zip calls result.2))))%Z
  ∧ (counter this ≤ counter result.1
     ≤ counter this + Z.of_nat (length calls))%Z
  ∧ ((∀ a, a ∈ calls → a.2 = false) →
     counter result.1 = counter this
     ∨ isLimitReached power_user {| counter := counter result.1 - 1 |}
       = false).
Proof.
  cbv zeta. revert this.
  induction calls as [|[[content r] isPrefix] calls IH]; intros this.
  { cbn. split; [done|]. split; [lia|]. split; [lia|]. by left. }
  rewrite addToMessages_cons. cbn [fst snd length].
  change (zip (?a :: ?l) (?b :: ?k)) with ((a, b) :: zip l k).
  destruct (IH (addToMessage power_user content r isPrefix this).1)
    as (IHlen & IHc & IHb & IHmax).
  split; [by rewrite IHlen|].
  destruct (addToMessage_cases power_user content r isPrefix this)
    as [Heq | (Hr & _ & Hl & Heq)]; rewrite Heq in *; cbn [fst snd counter] in *.
  - rewrite filter_cons_False by (cbn; by intros []).
    split; [done|]. split; [lia|]. intros Hnp. apply IHmax.
    intros a Ha. apply Hnp. by right.
  - rewrite filter_cons_True.
    2:{ cbn. destruct (isPrefix && negb (truthy content)) eqn:E.
        - apply andb_true_iff in E as [_ E]. destruct content; [|done].
          intros Hnil.
          apply app_eq_nil in Hnil as [_ Hnil]. done.
        - by apply with_reasoning_changes. }
    cbn [length]. split.
    { rewrite IHc, Nat2Z.inj_succ, <- Z.add_1_l, Z.add_assoc. reflexivity. }
    split; [lia|]. intros Hnp.
    assert (isPrefix = false) as ->
        by (apply (Hnp (content, r, isPrefix)); by left).
    destruct Hl as [|Hl]; [done|].
    destruct IHmax as [IHeq | IHl]; [intros a Ha; apply Hnp; by right| |].
    + right. rewrite IHeq.
      replace (counter this + 1 - 1)%Z with (counter this) by lia.
      by destruct this.
    + by right.
Qed.

(** X14: over calls in a row that are not for the prefix and bring
    reasoning that is neither empty nor the placeholder, the additions
    are served in order: the first [k] calls get their reasoning in
    front and all the calls after them get their content back, the
    counter ends [k] above its start, [isLimitReached] was false before
    each of the [k] calls, and it is true at the end when a call was
    left without its reasoning. *)
Theorem addToMessages_in_order power_user (calls : list addition) this :
  Forall plain_addition calls →
  let result := addToMessages power_user calls this in
  ∃ k : nat,
    k ≤ length calls
    ∧ result.2
      = map (λ a, with_reasoning power_user a.1.1 a.1.2) (take k calls)
        ++ map (λ a, a.1.1) (drop k calls)
    ∧ counter result.1 = (counter this + Z.of_nat k)%Z
    ∧ (∀ j : nat, j < k →
         isLimitReached power_user
           {| counter := counter this + Z.of_nat j |} = false)
    ∧ (k < length calls → isLimitReached power_user result.1 = true).
Proof.
  intros Hcalls. cbv zeta. revert this.
  induction Hcalls as [|[[content r] isPrefix] calls Hcall Hcalls IH];
    intros this.
  { exists 0. cbn. split; [done|]. split; [done|]. split; [lia|].
    split; intros; lia. }
  destruct (isLimitReached power_user this) eqn:Hl.
  - rewrite addToMessages_limited; [|done|by constructor].
    exists 0. cbn [fst snd take drop map app length].
    split; [lia|]. split; [done|]. split; [lia|]. split; [intros; lia|done].
  - destruct Hcall as (Hp & Hr1 & Hr2). cbn in Hp, Hr1, Hr2. subst isPrefix.
    rewrite addToMessages_cons.
    destruct (limit_not_reached _ _ Hl) as [Ha Hlt].
    rewrite (addToMessage_added _ _ _ _ Ha Hlt Hr1 Hr2). cbn [fst snd].
    destruct (IH {| counter := counter this + 1 |})
      as (k & Hk & Hout & Hc & Hbefore & Hend).
    cbn [counter] in *.
    exists (S k). cbn [take drop map app length fst snd].
    split; [lia|]. split; [by rewrite Hout|]. split; [lia|].
    split; [|intros; apply Hend; lia].
    intros [|j] Hj.
    + replace (counter this + Z.of_nat 0)%Z with (counter this) by lia.
      by destruct this.
    + replace (counter this + Z.of_nat (S j))%Z
        with (counter this + 1 + Z.of_nat j)%Z by lia.
      apply Hbefore. lia.
Qed.

End counter_more.

(** ** The parser: what a result looks like *)

Section parser_more.
Implicit Types (power_user : power_user_t) (p s str a r b l : jsstring).

Lemma trimStart_suffix l : ∃ u, l = u ++ trimStart l.
Proof.
  induction l as [|c l [u IH]]; [by exists []|]. cbn.
  destruct (isTrimmed c); [|by exists []].
  exists (c :: u). cbn. by rewrite <- IH.
Qed.

Lemma trim_inside l : ∃ u v, l = u ++ trim l ++ v.
Proof.
  destruct (trimStart_suffix l) as [u Hu].
  destruct (trimStart_suffix (rev (trimStart l))) as [v Hv].
  exists u, (rev v). unfold trim, trimEnd.
  rewrite <- rev_app_distr, <- Hv, rev_involutive. exact Hu.
Qed.

Lemma trim_length l : length (trim l) ≤ length l.
Proof.
  destruct (trim_inside l) as (u & v & H).
  rewrite H at 2. rewrite !length_app. lia.
Qed.

Lemma contains_trim l s : contains (trim l) s → contains l s.
Proof.
  intros (u & v & H). destruct (trim_inside l) as (u' & v' & Hl).
  exists (u' ++ u), (v ++ v'). rewrite Hl, H. by rewrite <- !app_assoc.
Qed.

(** The two ways the parser answers when both settings are in place. *)
Lemma parse_cases power_user p s str :
  prefix (reasoning power_user) = Some p →
  suffix (reasoning power_user) = Some s →
  p ≠ [] → s ≠ [] →
  (¬ occurs p s str
   ∧ parseReasoningFromString power_user str
     = Normal (Some {| pr_reasoning := []; pr_content := str |}))
  ∨ (∃ a r b,
       first_span p s str a r b
       ∧ parseReasoningFromString power_user str
         = Normal (Some
             (if trim_spaces power_user
              then {| pr_reasoning := trim r; pr_content := trim (a ++ b) |}
              else {| pr_reasoning := r; pr_content := a ++ b |}))).
Proof.
  intros Hp Hs Hpe Hse.
  destruct (RegExp.exec (span_regex p s) str) as [m|] eqn:He.
  - right. apply exec_span_Some in He as (a & r & b & Hfirst & _).
    exists a, r, b. split; [done|]. by apply (parse_first_span _ p s).
  - left. apply exec_span_None in He. split; [done|].
    by apply (parse_no_span _ p s).
Qed.

Lemma parse_Normal `{engine : RegExpEngine} power_user str :
  ∃ result, parseReasoningFromString power_user str = Normal result.
Proof.
  unfold parseReasoningFromString, try_catch.
  destruct (_ || _); [by eexists|]. destruct (_ ≫= _); by eexists.
Qed.

(** X15: with the built-in regular expressions, the parser returns
    [null] exactly when the prefix or the suffix is empty or unset: with
    both in place it always returns a result. *)
Theorem parse_null_iff power_user str :
  parseReasoningFromString power_user str = Normal None
  ↔ falsy (prefix (reasoning power_user)) = true
    ∨ falsy (suffix (reasoning power_user)) = true.
Proof.
  split.
  - intros Hnull.
    destruct (prefix (reasoning power_user)) as [p|] eqn:Hp; [|by left].
    destruct (suffix (reasoning power_user)) as [s|] eqn:Hs; [|by right].
    destruct p as [|c p]; [by left|]. destruct s as [|d s]; [by right|].
    exfalso.
    assert (parseReasoningFromString power_user str ≠ Normal None) as Hsome.
    { destruct (parse_cases power_user (c :: p) (d :: s) str Hp Hs)
        as [[_ H] | (a & r & b & _ & H)]; [done|done|by rewrite H|].
      rewrite H. by destruct (trim_spaces power_user). }
    done.
  - unfold parseReasoningFromString. by intros [-> | ->]; rewrite ?orb_true_r.
Qed.

(** X16: the reasoning that the parser returns never contains the
    suffix, trimmed or not: the capture ends at the first suffix after
    the prefix. *)
Theorem parse_reasoning_without_suffix power_user p s str result :
  prefix (reasoning power_user) = Some p →
  suffix (reasoning power_user) = Some s →
  parseReasoningFromString power_user str = Normal (Some result) →
  ¬ contains (pr_reasoning result) s.
Proof.
  intros Hp Hs Hparse.
  destruct (parse_Some_configured _ _ _ _ _ Hp Hs Hparse) as [Hpe Hse].
  destruct (parse_cases power_user p s str Hp Hs Hpe Hse)
    as [[_ H] | (a & r & b & (Hstr & _ & Hshort) & H)];
    rewrite H in Hparse.
  - injection Hparse as <-. cbn. intros (u & v & Huv).
    symmetry in Huv. apply app_eq_nil in Huv as [_ Huv].
    by apply app_eq_nil in Huv as [? _].
  - assert (¬ contains r s) as Hr.
    { intros (u & v & ->).
      specialize (Hshort u (v ++ s ++ b)).
      rewrite !length_app in Hshort.
      assert (length s ≠ 0) by (by destruct s).
      enough (length u + (length s + length v) ≤ length u) by lia.
      apply Hshort. rewrite Hstr. by rewrite <- !app_assoc. }
    destruct (trim_spaces power_user); injection Hparse as <-; cbn.
    + intros Hc. by apply Hr, contains_trim.
    + done.
Qed.

(** X17: the content that the parser returns is the input exactly when
    the prefix followed by the suffix does not occur in it; when it
    occurs, the content and the reasoning together are shorter than the
    input by at least the prefix and the suffix. *)
Theorem parse_content_changes_iff power_user p s str result :
  prefix (reasoning power_user) = Some p →
  suffix (reasoning power_user) = Some s →
  parseReasoningFromString power_user str = Normal (Some result) →
  (pr_content result = str ↔ ¬ occurs p s str)
  ∧ (occurs p s str →
     length (pr_content result) + length (pr_reasoning result)
       + length p + length s
     ≤ length str).
Proof.
  intros Hp Hs Hparse.
  destruct (parse_Some_configured _ _ _ _ _ Hp Hs Hparse) as [Hpe Hse].
  destruct (parse_cases power_user p s str Hp Hs Hpe Hse)
    as [[Hno H] | (a & r & b & (Hstr & _) & H)];
    rewrite H in Hparse.
  - injection Hparse as <-. cbn. split; [done|]. by intros ?.
  - assert (occurs p s str) as Hocc by (by exists a, r, b).
    assert (length (pr_content result) + length (pr_reasoning result)
            + length p + length s ≤ length str) as Hlen.
    { rewrite Hstr, !length_app.
      destruct (trim_spaces power_user); injection Hparse as <-; cbn.
      - pose proof (trim_length r). pose proof (trim_length (a ++ b)) as Hab.
        rewrite length_app in Hab. lia.
      - rewrite length_app. lia. }
    split; [|done]. split; [|done].
    intros Heq. rewrite Heq in Hlen.
    assert (length p ≠ 0) by (by destruct p). lia.
Qed.

End parser_more.

(** ** The auto-parser of received messages *)

Section auto_parser.
Context `{hooks : Collaborators}.
Implicit Types (power_user : power_user_t) (chat : list Message)
  (p s a r b : jsstring).

Lemma eqb_true l1 l2 : JS.eqb l1 l2 = true ↔ l1 = l2.
Proof. unfold JS.eqb. apply bool_decide_eq_true. Qed.

Lemma eqb_false l1 l2 : JS.eqb l1 l2 = false ↔ l1 ≠ l2.
Proof. unfold JS.eqb. apply bool_decide_eq_false. Qed.

Lemma truthy_true l : truthy l = true ↔ l ≠ [].
Proof. by destruct l. Qed.

(** The listener past its guards, in terms of what the parser returns. *)
Lemma auto_parse_reaches `{engine : RegExpEngine} power_user idx chat m :
  auto_parse (reasoning power_user) = true →
  chat !! idx = Some m → mes m ≠ [] → mes m ≠ lit "..." →
  auto_parse_message power_user idx chat
  = match parseReasoningFromString power_user (mes m) with
    | Normal (Some parsed) =>
        Normal
          (<[idx :=
              {| mes := pr_content parsed;
                 extra := Some
                   {| extra_reasoning :=
                        if truthy (pr_reasoning parsed)
                        then Some (getRegexedString (pr_reasoning parsed))
                        else extra m ≫= extra_reasoning;
                      extra_reasoning_duration :=
                        extra m ≫= extra_reasoning_duration |} |}]> chat,
           truthy (pr_reasoning parsed)
           || negb (JS.eqb (pr_content parsed) (mes m)))
    | Normal None => Normal (chat, false)
    | Throw e => Throw e
    end.
Proof.
  intros Ha Hm Hne Hdots. unfold auto_parse_message. rewrite Ha, Hm.
  apply truthy_true in Hne. apply eqb_false in Hdots. rewrite Hne, Hdots.
  cbn [negb orb].
  destruct (parseReasoningFromString power_user (mes m)) as [[parsed|]|];
    [|done..].
  cbn [mbind completion_bind JS.bind].
  destruct (JS.eqb (pr_content parsed) (mes m)) eqn:E;
    [apply eqb_true in E; rewrite E|];
    by destruct (truthy (pr_reasoning parsed)), (extra m) as [[]|].
Qed.

(** The listener stopped by one of its guards. *)
Lemma auto_parse_skips `{engine : RegExpEngine} power_user idx chat :
  auto_parse (reasoning power_user) = false
  ∨ chat !! idx = None
  ∨ (∃ m, chat !! idx = Some m ∧ (mes m = [] ∨ mes m = lit "...")) →
  auto_parse_message power_user idx chat = Normal (chat, false).
Proof.
  unfold auto_parse_message.
  intros [-> | [-> | (m & -> & Hm)]]; [done|by case_match|].
  case_match; [done|]. by destruct Hm as [-> | ->].
Qed.

Lemma auto_parse_guards power_user idx chat :
  (auto_parse (reasoning power_user) = false
   ∨ chat !! idx = None
   ∨ (∃ m, chat !! idx = Some m ∧ (mes m = [] ∨ mes m = lit "...")))
  ∨ (∃ m, auto_parse (reasoning power_user) = true
       ∧ chat !! idx = Some m ∧ mes m ≠ [] ∧ mes m ≠ lit "...").
Proof.
  destruct (auto_parse (reasoning power_user)); [|by left; left].
  destruct (chat !! idx) as [m|]; [|by left; right; left].
  destruct (decide (mes m = [])); [left; right; right; eauto|].
  destruct (decide (mes m = lit "...")); [left; right; right; eauto|].
  right. by exists m.
Qed.

(** X18: whatever the regular expression engine does, the listener does
    not throw; it leaves the number of messages and every other message
    as they were; and when it reports no update, the text of the message
    and the reasoning that reads back from it are as they were. *)
Theorem auto_parse_frame `{engine : RegExpEngine} power_user idx chat :
  ∃ chat' contentUpdated,
    auto_parse_message power_user idx chat = Normal (chat', contentUpdated)
    ∧ length chat' = length chat
    ∧ (∀ j, j ≠ idx → chat' !! j = chat !! j)
    ∧ (contentUpdated = false →
       mes <$> chat' = mes <$> chat
       ∧ reasoning_of (chat' !! idx) = reasoning_of (chat !! idx)).
Proof.
  destruct (auto_parse_guards power_user idx chat)
    as [Hskip | (m & Ha & Hm & Hne & Hdots)].
  { exists chat, false. by rewrite auto_parse_skips. }
  rewrite (auto_parse_reaches _ _ _ m) by done.
  destruct (parse_Normal power_user (mes m)) as [[parsed|] ->];
    [|by exists chat, false].
  eexists _, _. split; [done|]. split; [apply length_insert|].
  split; [intros j Hj; by apply list_lookup_insert_ne|].
  intros [Hr Hc]%orb_false_iff.
  apply negb_false_iff, eqb_true in Hc. rewrite Hr, Hc. split.
  - by apply insert_same_mes.
  - rewrite list_lookup_insert_eq by (by eapply lookup_lt_Some).
    rewrite Hm. unfold reasoning_of. cbn.
    by destruct (extra m) as [e|].
Qed.

(** X19: for a message whose text has a first span, the listener replaces
    the text by the content, the text without the span, and stores the
    captured reasoning, after the regex hook, unless it is empty, in
    which case the stored reasoning stays; both are trimmed first under
    trim-spaces; the stored duration stays, and an update is reported. *)
Theorem auto_parse_span power_user idx chat m p s a r b :
  auto_parse (reasoning power_user) = true →
  chat !! idx = Some m → mes m ≠ lit "..." →
  prefix (reasoning power_user) = Some p →
  suffix (reasoning power_user) = Some s →
  p ≠ [] → s ≠ [] →
  first_span p s (mes m) a r b →
  let reasoning' := if trim_spaces power_user then trim r else r in
  let content := if trim_spaces power_user then trim (a ++ b) else a ++ b in
  auto_parse_message power_user idx chat
  = Normal
      (<[idx :=
          {| mes := content;
             extra := Some
               {| extra_reasoning :=
                    if truthy reasoning'
                    then Some (getRegexedString reasoning')
                    else extra m ≫= extra_reasoning;
                  extra_reasoning_duration :=
                    extra m ≫= extra_reasoning_duration |} |}]> chat,
       true).
Proof.
  intros Ha Hm Hdots Hp Hs Hpe Hse Hfirst. cbv zeta.
  assert (mes m ≠ []) as Hne.
  { destruct Hfirst as [-> _]. destruct a, p; done. }
  rewrite (auto_parse_reaches _ _ _ m) by done.
  rewrite (parse_first_span _ p s _ a r b) by done.
  assert (length (if trim_spaces power_user then trim (a ++ b) else a ++ b)
          < length (mes m)) as Hlen.
  { destruct Hfirst as [-> _].
    assert (length p ≠ 0) by (by destruct p).
    pose proof (trim_length (a ++ b)).
    destruct (trim_spaces power_user); rewrite !length_app in *; lia. }
  destruct (trim_spaces power_user); cbn [pr_reasoning pr_content] in *.
  - rewrite (proj2 (eqb_false _ _)) by (intros Heq; rewrite Heq in Hlen; lia).
    by rewrite orb_true_r.
  - rewrite (proj2 (eqb_false _ _)) by (intros Heq; rewrite Heq in Hlen; lia).
    by rewrite orb_true_r.
Qed.


(** A message with [extra] and a text without span is left alone. *)
Lemma auto_parse_settled power_user idx chat m p s :
  chat !! idx = Some m → extra m ≠ None →
  prefix (reasoning power_user) = Some p →
  suffix (reasoning power_user) = Some s →
  p ≠ [] → s ≠ [] →
  ¬ occurs p s (mes m) →
  auto_parse_message power_user idx chat = Normal (chat, false).
Proof.
  intros Hm Hx Hp Hs Hpe Hse Hno.
  destruct (auto_parse_guards power_user idx chat)
    as [Hskip | (m0 & Ha & Hm0 & Hne & Hdots)]; [by apply auto_parse_skips|].
  rewrite Hm in Hm0. injection Hm0 as <-.
  rewrite (auto_parse_reaches _ _ _ m) by done.
  rewrite (parse_no_span _ p s) by done. cbn.
  rewrite (proj2 (eqb_true _ _)) by done. cbn.
  destruct (extra m) as [[]|] eqn:Ex; [|done]. cbn.
  rewrite list_insert_id; [done|]. rewrite Hm. destruct m. cbn in *.
  by rewrite Ex.
Qed.

Lemma parse_Some_settings `{engine : RegExpEngine} power_user str parsed :
  parseReasoningFromString power_user str = Normal (Some parsed) →
  ∃ p s, prefix (reasoning power_user) = Some p
    ∧ suffix (reasoning power_user) = Some s ∧ p ≠ [] ∧ s ≠ [].
Proof.
  unfold parseReasoningFromString.
  destruct (prefix (reasoning power_user)) as [[|c p]|]; try done.
  destruct (suffix (reasoning power_user)) as [[|d s]|]; try done.
  intros _. by eexists _, _.
Qed.

(** X21: running the listener again changes nothing more when the text
    it left has no span: the second run returns the chat of the first and
    reports no update. *)
Theorem auto_parse_twice power_user idx chat chat' contentUpdated :
  auto_parse_message power_user idx chat = Normal (chat', contentUpdated) →
  (∀ m' p s,
     chat' !! idx = Some m' →
     prefix (reasoning power_user) = Some p →
     suffix (reasoning power_user) = Some s →
     ¬ occurs p s (mes m')) →
  auto_parse_message power_user idx chat' = Normal (chat', false).
Proof.
  intros Hfirst Hno.
  destruct (auto_parse_guards power_user idx chat)
    as [Hskip | (m & Ha & Hm & Hne & Hdots)].
  { rewrite auto_parse_skips in Hfirst by done. injection Hfirst as <- <-.
    by apply auto_parse_skips. }
  rewrite (auto_parse_reaches _ _ _ m) in Hfirst by done.
  destruct (parseReasoningFromString power_user (mes m))
    as [[parsed|]|] eqn:Hparse; [|injection Hfirst as <- <-|done].
  2: { rewrite (auto_parse_reaches _ _ _ m) by done. by rewrite Hparse. }
  destruct (parse_Some_settings _ _ _ Hparse) as (p & s & Hp & Hs & Hpe & Hse).
  injection Hfirst as <- <-.
  set (m' := {| mes := pr_content parsed; extra := _ |}).
  assert (<[idx:=m']> chat !! idx = Some m') as Hm'.
  { apply list_lookup_insert_eq. by eapply lookup_lt_Some. }
  apply (auto_parse_settled _ _ _ m' p s); try done.
  by apply (Hno m').
Qed.

End auto_parser.

(** ** The slash commands *)

Section slash_commands.
Context `{hooks : Collaborators} `{utils : Utils}.
Implicit Types (power_user : power_user_t) (chat : list Message)
  (p s a r b value : jsstring).

(** X22: when the listener of received messages changes the reasoning
    that reads back from a message, the new reasoning is what
    [/reasoning-parse] returns for the text the message had, as long as
    its [regex] argument is not a false word. *)
Theorem reasoning_parse_agrees `{engine : RegExpEngine}
    power_user idx chat chat' contentUpdated m regex :
  auto_parse_message power_user idx chat = Normal (chat', contentUpdated) →
  chat !! idx = Some m →
  reasoning_of (chat' !! idx) ≠ reasoning_of (chat !! idx) →
  isFalseBoolean (default [] regex) = false →
  reasoning_parse power_user regex (mes m)
  = Normal (reasoning_of (chat' !! idx)).
Proof.
  intros Hauto Hm Hchanged Hregex.
  destruct (auto_parse_guards power_user idx chat)
    as [Hskip | (m0 & Ha & Hm0 & Hne & Hdots)].
  { rewrite auto_parse_skips in Hauto by done. by injection Hauto as <- _. }
  rewrite Hm in Hm0. injection Hm0 as <-.
  rewrite (auto_parse_reaches _ _ _ m) in Hauto by done.
  destruct (parseReasoningFromString power_user (mes m))
    as [[parsed|]|] eqn:Hparse; [|by injection Hauto as <- _|done].
  destruct (parse_Some_settings _ _ _ Hparse) as (p & s & Hp & Hs & Hpe & Hse).
  injection Hauto as <- _.
  rewrite list_lookup_insert_eq in Hchanged |- * by (by eapply lookup_lt_Some).
  rewrite Hm in Hchanged. unfold reasoning_of in Hchanged |- *.
  cbn in Hchanged |- *.
  destruct (truthy (pr_reasoning parsed)) eqn:Hr.
  - unfold reasoning_parse. apply truthy_true in Hne. rewrite Hne, Hp, Hs.
    rewrite !falsy_Some by done. cbn [negb orb]. rewrite Hparse.
    cbn [mbind completion_bind JS.bind]. by rewrite Hregex.
  - by destruct (extra m) as [[]|].
Qed.

(** X23: [/reasoning-parse] returns the empty string for an empty input
    and the input itself when the prefix or the suffix is empty or unset;
    with both in place it returns the reasoning of the first span of the
    input, trimmed under trim-spaces, and the empty reasoning when there
    is no span, in both cases after the regex hook unless the [regex]
    argument is a false word. *)
Theorem reasoning_parse_result power_user regex value :
  let post r := if isFalseBoolean (default [] regex) then r
                else getRegexedString r in
  (value = [] → reasoning_parse power_user regex value = Normal [])
  ∧ (value ≠ [] →
     falsy (prefix (reasoning power_user)) = true
     ∨ falsy (suffix (reasoning power_user)) = true →
     reasoning_parse power_user regex value = Normal value)
  ∧ (∀ p s,
       value ≠ [] →
       prefix (reasoning power_user) = Some p →
       suffix (reasoning power_user) = Some s →
       p ≠ [] → s ≠ [] →
       (¬ occurs p s value →
        reasoning_parse power_user regex value = Normal (post []))
       ∧ (∀ a r b,
            first_span p s value a r b →
            reasoning_parse power_user regex value
            = Normal (post (if trim_spaces power_user then trim r else r)))).
Proof.
  cbv zeta. split; [by intros ->|]. split.
  - intros Hv%truthy_true Hf. unfold reasoning_parse. rewrite Hv. cbn [negb].
    by destruct Hf as [-> | ->]; rewrite ?orb_true_r.
  - intros p s Hv%truthy_true Hp Hs Hpe Hse.
    unfold reasoning_parse. rewrite Hv, Hp, Hs, !falsy_Some by done.
    cbn [negb orb]. split.
    + intros Hno. rewrite (parse_no_span _ p s) by done.
      cbn [mbind completion_bind JS.bind pr_reasoning].
      by destruct (isFalseBoolean _).
    + intros a r b Hfirst. rewrite (parse_first_span _ p s _ a r b) by done.
      cbn [mbind completion_bind JS.bind].
      by destruct (isFalseBoolean _), (trim_spaces power_user).
Qed.

Lemma remove_placeholder_snoc r :
  remove_placeholder (r ++ PromptReasoning.REASONING_PLACEHOLDER) = r.
Proof.
  induction r as [|c r IH]; [done|]. cbn [app remove_placeholder].
  rewrite IH. by destruct r.
Qed.

Lemma remove_placeholder_other l :
  (∀ r, l ≠ r ++ PromptReasoning.REASONING_PLACEHOLDER) →
  remove_placeholder l = l.
Proof.
  induction l as [|c l IH]; [done|]. intros Hl. destruct l as [|d l].
  - cbn. destruct (N.eqb_spec c 8203) as [->|]; [|done].
    by destruct (Hl []).
  - cbn [remove_placeholder]. f_equal. apply IH.
    intros r Hr. apply (Hl (c :: r)). by rewrite Hr.
Qed.

Lemma chat_index_nat chat (i : nat) : chat_index chat (Z.of_nat i) = chat !! i.
Proof.
  unfold chat_index. rewrite (proj2 (Z.leb_le _ _)) by lia.
  by rewrite Nat2Z.id.
Qed.

(** X24: [/reasoning-get] returns the empty string for a number that is
    no index of the chat, negative or past the last message, for every
    argument when the chat is empty, and for a message without [extra] or
    without reasoning. *)
Theorem reasoning_get_nothing chat value :
  (chat = [] → reasoning_get chat value = [])
  ∧ (∀ n, parseInt value = Some n →
       (n < 0 ∨ Z.of_nat (length chat) ≤ n)%Z →
       reasoning_get chat value = [])
  ∧ (∀ i m, parseInt value = Some (Z.of_nat i) →
       chat !! i = Some m →
       extra m = None ∨ (extra m ≫= extra_reasoning) = None →
       reasoning_get chat value = []).
Proof.
  split; [|split].
  - intros ->. unfold reasoning_get, chat_index. cbn.
    destruct (parseInt value) as [n|]; [|done].
    case_match; [|done]. by rewrite lookup_nil.
  - intros n Hp Hn. unfold reasoning_get, chat_index. rewrite Hp.
    destruct (Z.leb_spec 0 n); [|done].
    rewrite lookup_ge_None_2 by lia. done.
  - intros i m Hp Hm Hx. unfold reasoning_get.
    rewrite Hp, chat_index_nat, Hm. unfold reasoning_of.
    destruct Hx as [-> | Hx]; [done|].
    destruct (extra m) as [e|]; [|done]. cbn in Hx. by rewrite Hx.
Qed.

(** X25: [/reasoning-get] reads the message whose number its argument
    starts with, and the last message when the argument does not start
    with a number; it returns the stored reasoning without a placeholder
    at its end: as it is when it does not end with the placeholder, and
    without its last code unit when it does, so that a reasoning that is
    the placeholder alone reads as empty. *)
Theorem reasoning_get_reads chat value i m :
  parseInt value = Some (Z.of_nat i)
  ∨ (parseInt value = None ∧ length chat = S i) →
  chat !! i = Some m →
  (∀ r, reasoning_of (Some m) = r ++ PromptReasoning.REASONING_PLACEHOLDER →
        reasoning_get chat value = r)
  ∧ ((∀ r, reasoning_of (Some m) ≠ r ++ PromptReasoning.REASONING_PLACEHOLDER) →
     reasoning_get chat value = reasoning_of (Some m)).
Proof.
  intros Hid Hm.
  assert (reasoning_get chat value = remove_placeholder (reasoning_of (Some m)))
    as ->.
  { unfold reasoning_get. destruct Hid as [Hp | [Hp Hlen]]; rewrite Hp.
    - by rewrite chat_index_nat, Hm.
    - replace (Z.of_nat (length chat) - 1)%Z with (Z.of_nat i) by lia.
      by rewrite chat_index_nat, Hm. }
  split.
  - intros r ->. apply remove_placeholder_snoc.
  - apply remove_placeholder_other.
Qed.

End slash_commands.

(** ** Hidden-reasoning models *)

Section hidden_models.

Lemma startsWith_true (l p : jsstring) :
  JS.startsWith l p = true ↔ ∃ rest, l = p ++ rest.
Proof.
  revert l. induction p as [|c p IH]; intros l.
  - split; [intros _; by exists l|by destruct l].
  - destruct l as [|d l]; cbn.
    + split; [done|]. by intros [rest ?].
    + rewrite andb_true_iff, N.eqb_eq, IH. split.
      * intros [-> [rest ->]]. by exists rest.
      * intros [rest Heq]. injection Heq as -> ->. split; [done|by exists rest].
Qed.

(** X26: a model is hidden-reasoning exactly when the main API is
    [openai] and either the source is OpenAI and the name of the OpenAI
    model starts with [o1] or [o3], or the source is MakerSuite and the
    name of the Google model starts with
    [gemini-2.0-flash-thinking-exp] or [gemini-2.0-pro-exp]; the model of
    the other source plays no part. *)
Theorem isHiddenReasoningModel_iff main_api oai_settings :
  isHiddenReasoningModel main_api oai_settings = true
  ↔ main_api = lit "openai"
    ∧ ((chat_completion_source oai_settings = OPENAI
        ∧ ((∃ rest, openai_model oai_settings = lit "o1" ++ rest)
           ∨ (∃ rest, openai_model oai_settings = lit "o3" ++ rest)))
       ∨ (chat_completion_source oai_settings = MAKERSUITE
          ∧ ((∃ rest, google_model oai_settings
                      = lit "gemini-2.0-flash-thinking-exp" ++ rest)
             ∨ (∃ rest, google_model oai_settings
                        = lit "gemini-2.0-pro-exp" ++ rest)))).
Proof.
  unfold isHiddenReasoningModel, JS.eqb.
  rewrite <- !startsWith_true.
  case_bool_decide as Hapi; cbn [negb]; [|by split; [|intros [? _]]].
  destruct (chat_completion_source oai_settings);
    cbn [hiddenReasoningModels existsb];
    rewrite ?orb_false_r, ?orb_true_iff.
  - split; [intros H; split; [done|]; left; by split|].
    by intros [_ [[_ H] | [? _]]].
  - split; [intros H; split; [done|]; right; by split|].
    by intros [_ [[? _] | [_ H]]].
  - split; [done|]. by intros [_ [[? _] | [? _]]].
  - split; [done|]. by intros [_ [[? _] | [? _]]].
  - split; [done|]. by intros [_ [[? _] | [? _]]].
Qed.

End hidden_models.

(** ** Examples of the above *)

Section more_examples.
Import ReasoningHandler.

Lemma first_span_of_exec p s str a r b :
  RegExp.exec (span_regex p s) str
  = Some (RegExp.Match (length a) (p ++ r ++ s) r) →
  str = a ++ p ++ r ++ s ++ b →
  first_span p s str a r b.
Proof.
  intros (a' & r' & b' & Hfirst & Hm)%exec_span_Some Hstr.
  injection Hm as Hlen _ <-.
  pose proof Hfirst as [Hstr' _]. rewrite Hstr in Hstr'.
  apply app_inj_1 in Hstr' as [<- Hstr']; [|done].
  apply app_inv_head in Hstr'. apply app_inv_head in Hstr'.
  apply app_inv_head in Hstr'. by subst b'.
Qed.

Lemma process_persists_witness :
  chat (@process no_hooks 0 false 2000
          (example_handler (lit "hm") None, example_world None)).1.2 !! 0
  = Some {| mes := lit "Hi";
            extra := Some {| extra_reasoning := Some (lit "hm");
                             extra_reasoning_duration := Some None |} |}.
Proof.
  destruct (@process_persists no_hooks 0 false 2000
              (example_handler (lit "hm") None) (example_world None)
              (example_message None)) as [H _].
  - reflexivity.
  - left. discriminate.
  - cbv zeta in H. rewrite H. vm_compute. reflexivity.
Defined.


Lemma finish_cannot_persist_witness :
  (finish 7 9000 (example_handler (lit "hm") (Some 1000%Z),
                  example_world None)).2
  = Throw TypeError
  ∧ emitted (finish 7 9000 (example_handler (lit "hm") (Some 1000%Z),
                            example_world None)).1.2
    = [reasoning_done (lit "hm")].
Proof.
  rewrite (finish_cannot_persist 7 9000
             (example_handler (lit "hm") (Some 1000%Z)) (example_world None)).
  - split; vm_compute; reflexivity.
  - discriminate.
  - reflexivity.
  - left. reflexivity.
Defined.

Lemma finish_persists_witness :
  chat (finish 0 9000 (example_handler (lit "hm") (Some 1000%Z),
                       example_world (Some (lit "hm")))).1.2
  = [{| mes := lit "Hi";
        extra := Some {| extra_reasoning := Some (lit "hm");
                         extra_reasoning_duration := Some (Some 8000%Z) |} |}].
Proof.
  destruct (finish_persists 0 9000
              (example_handler (lit "hm") (Some 1000%Z))
              (example_world (Some (lit "hm")))
              (example_message (Some (lit "hm")))
              {| extra_reasoning := Some (lit "hm");
                 extra_reasoning_duration := None |} 1000)
    as (_ & _ & H & _); [reflexivity..|].
  cbv zeta in H. rewrite H. vm_compute. reflexivity.
Defined.


Lemma session_times_witness :
  getDuration (@session no_hooks (lit "normal") 1000 (example_world None)
     [UpdateReasoning (Some (lit "hm")); Process 0 false 2000;
      Process 0 true 5000]).1
  = Some 4000%Z.
Proof.
  destruct (@session_times no_hooks (lit "normal") 1000 (example_world None)
     [UpdateReasoning (Some (lit "hm")); Process 0 false 2000;
      Process 0 true 5000]) as [_ H].
  destruct (H 5000%Z) as [Hd _]; [vm_compute; reflexivity|].
  exact Hd.
Defined.

Lemma session_without_reasoning_witness :
  @session no_hooks (lit "normal") 1000 (example_world None)
    [Process 0 true 2000; Process 0 false 3000; Finish 0 9000]
  = (constructor (lit "normal") 1000 (example_world None), example_world None).
Proof.
  apply (@session_without_reasoning no_hooks).
  - vm_compute. reflexivity.
  - intros c Hc. repeat (apply elem_of_cons in Hc as [-> | Hc]);
      [by exists 0, 2000%Z; left; exists true
      |by exists 0, 3000%Z; left; exists false
      |by exists 0, 9000%Z; right|].
    by apply elem_of_nil in Hc.
Defined.

Lemma hidden_model_first_cycle_witness :
  startTime (@process no_hooks 0 true 1500
               (constructor (lit "normal") 1000 hidden_world, hidden_world)).1.1
  = Some 1000%Z
  ∧ endTime (@process no_hooks 0 true 1500
               (constructor (lit "normal") 1000 hidden_world, hidden_world)).1.1
    = Some 1500%Z.
Proof.
  destruct (@hidden_model_first_cycle no_hooks (lit "normal") 1000
              hidden_world 0 true 1500 (example_message None))
    as (H1 & H2 & _).
  - vm_compute. reflexivity.
  - reflexivity.
  - split; [exact H1|exact H2].
Defined.

Lemma session_keeps_texts_witness :
  mes <$> chat (@session no_hooks (lit "normal") 1000 (example_world None)
     [UpdateReasoning (Some (lit "hm")); Process 0 true 2000;
      Finish 0 9000]).2
  = [lit "Hi"].
Proof.
  rewrite (@session_keeps_texts no_hooks).
  - reflexivity.
  - intros c chat' power_user' Hc.
    repeat (apply elem_of_cons in Hc as [-> | Hc]); try discriminate.
    by apply elem_of_nil in Hc.
Defined.

Lemma addToMessages_in_order_witness :
  ∃ k : nat,
    k ≤ 3
    ∧ (@addToMessages no_hooks (example_settings "<think>" "</think>" false)
         [(lit "A", lit "a", false); (lit "B", lit "b", false);
          (lit "C", lit "c", false)]
         PromptReasoning.constructor).2
      = map (λ a, @with_reasoning no_hooks
                    (example_settings "<think>" "</think>" false) a.1.1 a.1.2)
          (take k [(lit "A", lit "a", false); (lit "B", lit "b", false);
                   (lit "C", lit "c", false)])
        ++ map (λ a, a.1.1)
             (drop k [(lit "A", lit "a", false); (lit "B", lit "b", false);
                      (lit "C", lit "c", false)])
    ∧ PromptReasoning.counter
        (@addToMessages no_hooks (example_settings "<think>" "</think>" false)
           [(lit "A", lit "a", false); (lit "B", lit "b", false);
            (lit "C", lit "c", false)]
           PromptReasoning.constructor).1
      = (0 + Z.of_nat k)%Z
    ∧ (∀ j : nat, j < k →
         PromptReasoning.isLimitReached
           (example_settings "<think>" "</think>" false)
           {| PromptReasoning.counter := 0 + Z.of_nat j |} = false)
    ∧ (k < 3 →
       PromptReasoning.isLimitReached
         (example_settings "<think>" "</think>" false)
         (@addToMessages no_hooks (example_settings "<think>" "</think>" false)
            [(lit "A", lit "a", false); (lit "B", lit "b", false);
             (lit "C", lit "c", false)]
            PromptReasoning.constructor).1 = true).
Proof.
  apply (@addToMessages_in_order no_hooks
           (example_settings "<think>" "</think>" false)
           [(lit "A", lit "a", false); (lit "B", lit "b", false);
            (lit "C", lit "c", false)]
           PromptReasoning.constructor).
  repeat constructor; discriminate.
Defined.

(** The same three calls, evaluated: with a maximum of two additions the
    third call gets its content back. *)
Lemma addToMessages_three_calls :
  @addToMessages no_hooks (example_settings "<think>" "</think>" false)
    [(lit "A", lit "a", false); (lit "B", lit "b", false);
     (lit "C", lit "c", false)]
    PromptReasoning.constructor
  = ({| PromptReasoning.counter := 2 |},
     [lit "<think>a</think>|A"; lit "<think>b</think>|B"; lit "C"]).
Proof. vm_compute. reflexivity. Qed.

Lemma parse_reasoning_without_suffix_witness :
  ¬ contains (lit "b") (lit "]").
Proof.
  apply (parse_reasoning_without_suffix (example_settings "[" "]" false)
           (lit "[") (lit "]") (lit "a[b]c[d]]e")
           {| pr_reasoning := lit "b"; pr_content := lit "ac[d]]e" |});
    [reflexivity|reflexivity|vm_compute; reflexivity].
Defined.

Lemma parse_content_changes_iff_witness :
  length (lit " rest") + length (lit " abc ") + length (lit "PRE")
    + length (lit "SUF")
  ≤ length (lit "PRE abc SUF rest").
Proof.
  destruct (parse_content_changes_iff (example_settings "PRE" "SUF" false)
              (lit "PRE") (lit "SUF") (lit "PRE abc SUF rest")
              {| pr_reasoning := lit " abc "; pr_content := lit " rest" |})
    as [_ H]; [reflexivity|reflexivity|vm_compute; reflexivity|].
  apply H. exists [], (lit " abc "), (lit " rest"). reflexivity.
Defined.

Lemma auto_parse_span_witness :
  @auto_parse_message JSRegExp no_hooks
    (example_settings "<think>" "</think>" false) 0 [received_message]
  = Normal ([{| mes := lit "Hello";
                extra := Some {| extra_reasoning := Some (lit "hm");
                                 extra_reasoning_duration := None |} |}],
            true).
Proof.
  rewrite (@auto_parse_span no_hooks
             (example_settings "<think>" "</think>" false) 0
             [received_message] received_message
             (lit "<think>") (lit "</think>") [] (lit "hm") (lit "Hello")).
  - vm_compute. reflexivity.
  - reflexivity.
  - reflexivity.
  - discriminate.
  - reflexivity.
  - reflexivity.
  - discriminate.
  - discriminate.
  - apply first_span_of_exec; vm_compute; reflexivity.
Defined.


Lemma auto_parse_twice_witness :
  @auto_parse_message JSRegExp no_hooks
    (example_settings "<think>" "</think>" false) 0
    [{| mes := lit "Hello";
        extra := Some {| extra_reasoning := Some (lit "hm");
                         extra_reasoning_duration := None |} |}]
  = Normal ([{| mes := lit "Hello";
                extra := Some {| extra_reasoning := Some (lit "hm");
                                 extra_reasoning_duration := None |} |}],
            false).
Proof.
  apply (@auto_parse_twice no_hooks
           (example_settings "<think>" "</think>" false) 0
           [received_message] _ true).
  - vm_compute. reflexivity.
  - intros m' p s [= <-] [= <-] [= <-].
    apply exec_span_None. vm_compute. reflexivity.
Defined.

Lemma reasoning_parse_agrees_witness :
  @reasoning_parse JSRegExp no_hooks example_utils
    (example_settings "<think>" "</think>" false) None
    (mes received_message)
  = Normal (lit "hm").
Proof.
  etransitivity.
  - apply (@reasoning_parse_agrees no_hooks example_utils JSRegExp
             (example_settings "<think>" "</think>" false) 0
             [received_message]
             [{| mes := lit "Hello";
                 extra := Some {| extra_reasoning := Some (lit "hm");
                                  extra_reasoning_duration := None |} |}]
             true received_message None).
    + vm_compute. reflexivity.
    + reflexivity.
    + discriminate.
    + reflexivity.
  - reflexivity.
Defined.

Lemma reasoning_get_reads_witness :
  reasoning_get
    [example_message None;
     example_message (Some (lit "hm" ++ PromptReasoning.REASONING_PLACEHOLDER))]
    (lit " 1st")
  = lit "hm".
Proof.
  destruct (reasoning_get_reads
    [example_message None;
     example_message (Some (lit "hm" ++ PromptReasoning.REASONING_PLACEHOLDER))]
    (lit " 1st") 1
    (example_message (Some (lit "hm" ++ PromptReasoning.REASONING_PLACEHOLDER))))
    as [H _].
  - left. vm_compute. reflexivity.
  - reflexivity.
  - apply H. reflexivity.
Defined.

End more_examples.
